(** * blocker: the domain-decision engine of the intercepting proxy

    A shallow embedding of the Go packages [internal/blocker] (matchers and
    the [Blocker] rule engine) and of the CONNECT path of [internal/proxy],
    followed by the properties of the rule engine.

    Go strings are byte sequences: they are modelled as [list ascii]
    ([ascii] is an 8-bit byte).  The functions of Go's [strings] package that
    the sources call are modelled in [Module strings]; [ToLower] and
    [TrimSpace] are Go's on ASCII input (bytes below 0x80), which is what a
    host name or a blacklist entry consists of.  On bytes from 0x80 upwards
    Go decodes UTF-8 and consults the Unicode tables; the model leaves such
    bytes unchanged and never treats them as white space. *)

From Stdlib Require Import Ascii String List ZArith NArith Lia Bool Permutation.
Import ListNotations.

Open Scope string_scope.
Open Scope list_scope.
Open Scope Z_scope.

(** ** Go strings *)

Definition gostring := list ascii.

Definition str (s : string) : gostring := list_ascii_of_string s.
Coercion str : string >-> gostring.

(** Go's [a + b] on strings. *)
Notation "a +++ b" := (@app ascii (a : gostring) (b : gostring))
  (at level 60, right associativity, only parsing).

Module strings.

(** [len(s)] *)
Definition len (s : gostring) : Z := Z.of_nat (length s).

(** [s[lo:hi]]; every use in the sources is guarded so that
    [0 <= lo <= hi <= len(s)], where this is Go's slice expression. *)
Definition slice (s : gostring) (lo hi : Z) : gostring :=
  firstn (Z.to_nat (hi - lo)) (skipn (Z.to_nat lo) s).

(** [a == b] *)
Fixpoint eqb (a b : gostring) : bool :=
  match a, b with
  | [], [] => true
  | x :: a', y :: b' => Ascii.eqb x y && eqb a' b'
  | _, _ => false
  end.

(** [len(s) >= len(prefix) && s[:len(prefix)] == prefix] *)
Definition HasPrefix (s prefix : gostring) : bool :=
  (len prefix <=? len s) && eqb (slice s 0 (len prefix)) prefix.

(** [len(s) >= len(suffix) && s[len(s)-len(suffix):] == suffix] *)
Definition HasSuffix (s suffix : gostring) : bool :=
  (len suffix <=? len s) && eqb (slice s (len s - len suffix) (len s)) suffix.

(** [Index(s, substr)]: the index of the first instance of [substr] in [s],
    or -1.  [Index_at s substr i] scans the tail [s] that starts at offset
    [i] of the original string. *)
Fixpoint Index_at (s substr : gostring) (i : Z) : Z :=
  if HasPrefix s substr then i
  else match s with
       | [] => -1
       | _ :: s' => Index_at s' substr (i + 1)
       end.

Definition Index (s substr : gostring) : Z := Index_at s substr 0.

(** [Contains(s, substr)] is [Index(s, substr) >= 0]. *)
Definition Contains (s substr : gostring) : bool := 0 <=? Index s substr.

(** [LastIndex(s, substr)]: the index of the last instance of [substr] in
    [s], or -1.  [found] is the last instance seen so far. *)
Fixpoint LastIndex_at (s substr : gostring) (i found : Z) : Z :=
  let found' := if HasPrefix s substr then i else found in
  match s with
  | [] => found'
  | _ :: s' => LastIndex_at s' substr (i + 1) found'
  end.

Definition LastIndex (s substr : gostring) : Z := LastIndex_at s substr 0 (-1).

(** The ASCII white space of [TrimSpace]: tab, LF, VT, FF, CR and space. *)
Definition isSpace (c : ascii) : bool :=
  let n := N_of_ascii c in
  (((9 <=? n) && (n <=? 13)) || (n =? 32))%N.

Fixpoint TrimLeft (s : gostring) : gostring :=
  match s with
  | [] => []
  | c :: s' => if isSpace c then TrimLeft s' else s
  end.

Definition TrimRight (s : gostring) : gostring := rev (TrimLeft (rev s)).

(** [TrimSpace(s)]: [s] without leading and trailing white space. *)
Definition TrimSpace (s : gostring) : gostring := TrimRight (TrimLeft s).

Definition isUpper (c : ascii) : bool :=
  let n := N_of_ascii c in ((65 <=? n) && (n <=? 90))%N.

(** ['A' <= c && c <= 'Z'] gives [c += 'a' - 'A']. *)
Definition lowerByte (c : ascii) : ascii :=
  if isUpper c then ascii_of_N (N_of_ascii c + 32) else c.

Definition ToLower (s : gostring) : gostring := map lowerByte s.

End strings.

(** ** Package blocker: matchers (matcher.go) *)

Module blocker.
Import strings.

(** The four implementations of the [Matcher] interface, with their fields. *)
Inductive Matcher : Type :=
| ExactMatcher (domain : gostring)
| PrefixWildcardMatcher (pattern suffix : gostring)
| SuffixWildcardMatcher (pattern prefix : gostring)
| DoubleWildcardMatcher (pattern middle : gostring).

Definition NewExactMatcher (domain : gostring) : Matcher :=
  ExactMatcher (ToLower (TrimSpace domain)).

Definition NewPrefixWildcardMatcher (pattern : gostring) : Matcher :=
  let pattern := ToLower (TrimSpace pattern) in
  let suffix :=
    if HasPrefix pattern "*." then slice pattern 1 (len pattern) else [] in
  PrefixWildcardMatcher pattern suffix.

Definition NewSuffixWildcardMatcher (pattern : gostring) : Matcher :=
  let pattern := ToLower (TrimSpace pattern) in
  let prefix :=
    if HasSuffix pattern ".*" then slice pattern 0 (len pattern - 1) else [] in
  SuffixWildcardMatcher pattern prefix.

Definition NewDoubleWildcardMatcher (pattern : gostring) : Matcher :=
  let pattern := ToLower (TrimSpace pattern) in
  let middle :=
    if HasPrefix pattern "*." && HasSuffix pattern ".*"
    then slice pattern 1 (len pattern - 1) else [] in
  DoubleWildcardMatcher pattern middle.

(** The [Match] method of each implementation. *)
Definition Match (m : Matcher) (domain : gostring) : bool :=
  let domain := ToLower (TrimSpace domain) in
  match m with
  | ExactMatcher m_domain =>
      if eqb domain m_domain then true
      else if HasSuffix domain ("." +++ m_domain) then true
      else false
  | PrefixWildcardMatcher _ suffix =>
      if eqb suffix [] then false
      else HasSuffix domain suffix
           && negb (eqb domain (slice suffix 1 (len suffix)))
  | SuffixWildcardMatcher _ prefix =>
      if eqb prefix [] then false
      else if HasPrefix domain prefix then
        let rest := slice domain (len prefix) (len domain) in
        0 <? len rest
      else if Contains domain ("." +++ prefix) then true
      else false
  | DoubleWildcardMatcher _ middle =>
      if eqb middle [] then false
      else Contains domain middle
  end.

(** The [Pattern] method of each implementation. *)
Definition Pattern (m : Matcher) : gostring :=
  match m with
  | ExactMatcher domain => domain
  | PrefixWildcardMatcher pattern _ => pattern
  | SuffixWildcardMatcher pattern _ => pattern
  | DoubleWildcardMatcher pattern _ => pattern
  end.

Definition CreateMatcher (pattern : gostring) : Matcher :=
  let pattern := TrimSpace pattern in
  let hasPrefix := HasPrefix pattern "*." in
  let hasSuffix := HasSuffix pattern ".*" in
  if hasPrefix && hasSuffix then NewDoubleWildcardMatcher pattern
  else if hasPrefix then NewPrefixWildcardMatcher pattern
  else if hasSuffix then NewSuffixWildcardMatcher pattern
  else NewExactMatcher pattern.

(** The dynamic type of a matcher, as [TestCreateMatcher] observes it. *)
Inductive Kind : Type := Exact | PrefixWildcard | SuffixWildcard | DoubleWildcard.

Definition kind (m : Matcher) : Kind :=
  match m with
  | ExactMatcher _ => Exact
  | PrefixWildcardMatcher _ _ => PrefixWildcard
  | SuffixWildcardMatcher _ _ => SuffixWildcard
  | DoubleWildcardMatcher _ _ => DoubleWildcard
  end.

(** ** Package blocker: the rule engine (blocker.go) *)

(** [int64] arithmetic: the value of [c] reduced to the signed 64-bit range. *)
Definition MaxInt64 : Z := 9223372036854775807.
Definition MinInt64 : Z := -9223372036854775808.

Definition wrap64 (z : Z) : Z := (z - MinInt64) mod 2 ^ 64 + MinInt64.

(** The struct [Blocker] without its two mutexes: the model is sequential. *)
Record Blocker : Type := mkBlocker {
  matchers : list Matcher;
  logBlocked : bool;
  logAllowed : bool;
  blockedCount : Z;
  allowedCount : Z
}.

(** One call of [log.Printf], by format string and arguments:
    ["[blocker] Updated blacklist with %d patterns"],
    ["[BLOCKED] %s (matched: %s)"] and ["[ALLOWED] %s"]. *)
Inductive LogRecord : Type :=
| LogUpdated (n : Z)
| LogBlocked (domain pattern : gostring)
| LogAllowed (domain : gostring).

Definition New : Blocker :=
  {| matchers := []; logBlocked := true; logAllowed := false;
     blockedCount := 0; allowedCount := 0 |}.

Definition SetLogging (b : Blocker) (logBlocked' logAllowed' : bool) : Blocker :=
  {| matchers := matchers b; logBlocked := logBlocked'; logAllowed := logAllowed';
     blockedCount := blockedCount b; allowedCount := allowedCount b |}.

(** The loop of [UpdateBlacklist]; [ms] is [b.matchers] so far. *)
Fixpoint UpdateBlacklist_loop (ms : list Matcher) (patterns : list gostring)
  : list Matcher :=
  match patterns with
  | [] => ms
  | pattern :: rest =>
      let pattern := TrimSpace pattern in
      if eqb pattern [] then UpdateBlacklist_loop ms rest
      else UpdateBlacklist_loop (ms ++ [CreateMatcher pattern]) rest
  end.

Definition UpdateBlacklist (b : Blocker) (patterns : list gostring)
  : Blocker * list LogRecord :=
  let ms := UpdateBlacklist_loop [] patterns in
  ({| matchers := ms; logBlocked := logBlocked b; logAllowed := logAllowed b;
      blockedCount := blockedCount b; allowedCount := allowedCount b |},
   [LogUpdated (Z.of_nat (length ms))]).

Definition recordBlocked (b : Blocker) : Blocker :=
  {| matchers := matchers b; logBlocked := logBlocked b; logAllowed := logAllowed b;
     blockedCount := wrap64 (blockedCount b + 1); allowedCount := allowedCount b |}.

Definition recordAllowed (b : Blocker) : Blocker :=
  {| matchers := matchers b; logBlocked := logBlocked b; logAllowed := logAllowed b;
     blockedCount := blockedCount b; allowedCount := wrap64 (allowedCount b + 1) |}.

(** The first statement of [IsBlocked]:
    [if idx := strings.LastIndex(domain, ":"); idx != -1 { domain = domain[:idx] }] *)
Definition stripPort (domain : gostring) : gostring :=
  let idx := LastIndex domain ":" in
  if negb (idx =? -1) then slice domain 0 idx else domain.

(** The loop of [IsBlocked] over the matchers that remain: the matcher whose
    [Match] returned true, if the loop returned from inside. *)
Fixpoint IsBlocked_loop (ms : list Matcher) (domain : gostring) : option Matcher :=
  match ms with
  | [] => None
  | matcher :: rest =>
      if Match matcher domain then Some matcher
      else IsBlocked_loop rest domain
  end.

(** [IsBlocked]: the result, the engine afterwards, and what was logged. *)
Definition IsBlocked (b : Blocker) (domain : gostring)
  : bool * Blocker * list LogRecord :=
  let domain := stripPort domain in
  let domain := ToLower (TrimSpace domain) in
  match IsBlocked_loop (matchers b) domain with
  | Some matcher =>
      (true, recordBlocked b,
       if logBlocked b then [LogBlocked domain (Pattern matcher)] else [])
  | None =>
      (false, recordAllowed b,
       if logAllowed b then [LogAllowed domain] else [])
  end.

Definition Stats (b : Blocker) : Z * Z := (blockedCount b, allowedCount b).

Definition GetPatterns (b : Blocker) : list gostring := map Pattern (matchers b).

End blocker.

(** ** Package proxy: the CONNECT path (handler.go) *)

Module proxy.
Import strings blocker.

(** The fields of [*http.Request] that [handleConnect] reads. *)
Record Request : Type := mkRequest {
  Method : gostring;
  Host : gostring
}.

(** The two ends of a tunnel. *)
Inductive Conn : Type := destConn | clientConn.

(** What the handler does to the outside world, in the order of the calls:
    [http.Error(w, msg, code)], [net.DialTimeout(network, address, seconds)],
    [hijacker.Hijack()], [destConn.Close()], [clientConn.Write(data)] and
    [go transfer(dst, src)]. *)
Inductive Action : Type :=
| HttpError (msg : gostring) (code : Z)
| DialTimeout (network address : gostring) (seconds : Z)
| Hijack
| DestClose
| ClientWrite (data : gostring)
| GoTransfer (dst src : Conn).

(** What the outside world answers: the error of the dial to an address
    ([None] is [nil]), whether the response writer is an [http.Hijacker],
    and the error of [Hijack()]. *)
Record World : Type := mkWorld {
  dialError : gostring -> option gostring;
  isHijacker : bool;
  hijackError : option gostring
}.

Definition StatusForbidden : Z := 403.
Definition StatusInternalServerError : Z := 500.
Definition StatusBadGateway : Z := 502.

Definition CRLF : gostring := ["013"%char; "010"%char].

(** [handleConnect]: the engine afterwards, what the engine logged, and the
    actions of the handler. *)
Definition handleConnect (env : World) (b : Blocker) (r : Request)
  : Blocker * list LogRecord * list Action :=
  let host := Host r in
  let '(blocked, b', logged) := IsBlocked b host in
  if blocked then
    (b', logged, [HttpError "Blocked" StatusForbidden])
  else
    let dial := DialTimeout "tcp" host 30 in
    match dialError env host with
    | Some err =>
        (b', logged,
         [dial; HttpError ("Failed to connect: " +++ err) StatusBadGateway])
    | None =>
        if negb (isHijacker env) then
          (b', logged,
           [dial; HttpError "Hijacking not supported" StatusInternalServerError;
            DestClose])
        else
          match hijackError env with
          | Some err =>
              (b', logged,
               [dial; Hijack;
                HttpError ("Hijack failed: " +++ err) StatusInternalServerError;
                DestClose])
          | None =>
              (b', logged,
               [dial; Hijack;
                ClientWrite ("HTTP/1.1 200 Connection Established" +++ CRLF +++ CRLF);
                GoTransfer destConn clientConn;
                GoTransfer clientConn destConn])
          end
    end.

(** [ServeHTTP] sends the CONNECT requests to [handleConnect].  The path of
    the other methods, [handleHTTP], is not modelled: it is a parameter. *)
Section ServeHTTP.
Variable handleHTTP :
  World -> Blocker -> Request -> Blocker * list LogRecord * list Action.

Definition ServeHTTP (env : World) (b : Blocker) (r : Request)
  : Blocker * list LogRecord * list Action :=
  if eqb (Method r) "CONNECT" then handleConnect env b r
  else handleHTTP env b r.

End ServeHTTP.

Definition actions (res : Blocker * list LogRecord * list Action) : list Action :=
  snd res.

(** An action that opens a connection to a destination. *)
Definition isDial (a : Action) : bool :=
  match a with
  | DialTimeout _ _ _ => true
  | _ => false
  end.

End proxy.

(** ** Packages net/textproto and net/http: header maps *)

Module http.
Import strings.

(** [http.Header], a [map[string][]string]: the keys with their values.  A Go
    map has no order; the order of the list stands for the order in which a
    [range] over the map happens to visit the keys. *)
Definition Header : Type := list (gostring * list gostring).

(** The bytes of a header field name (the token bytes of RFC 7230). *)
Definition validHeaderFieldByte (c : ascii) : bool :=
  let n := N_of_ascii c in
  (((48 <=? n) && (n <=? 57)) || ((65 <=? n) && (n <=? 90))
   || ((97 <=? n) && (n <=? 122))
   || existsb (N.eqb n) [33; 35; 36; 37; 38; 39; 42; 43; 45; 46; 94; 95; 96; 124; 126])%N.

Definition isLower (c : ascii) : bool :=
  let n := N_of_ascii c in ((97 <=? n) && (n <=? 122))%N.

(** The loop of [canonicalMIMEHeaderKey]: upper case at the start and after
    each ['-'], lower case elsewhere. *)
Fixpoint canonicalMIMEHeaderKey (upper : bool) (a : gostring) : gostring :=
  match a with
  | [] => []
  | c :: rest =>
      let c' :=
        if upper && isLower c then ascii_of_N (N_of_ascii c - 32)
        else if negb upper && isUpper c then ascii_of_N (N_of_ascii c + 32)
        else c in
      c' :: canonicalMIMEHeaderKey (Ascii.eqb c' "-") rest
  end.

(** [textproto.CanonicalMIMEHeaderKey]: a name with a byte that is not a
    token byte is returned as it is. *)
Definition CanonicalMIMEHeaderKey (s : gostring) : gostring :=
  if forallb validHeaderFieldByte s then canonicalMIMEHeaderKey true s else s.

(** [h.Del(key)] is [delete(h, CanonicalMIMEHeaderKey(key))]. *)
Definition Del (h : Header) (key : gostring) : Header :=
  let key := CanonicalMIMEHeaderKey key in
  filter (fun kv => negb (eqb (fst kv) key)) h.

(** [h[key]], the values stored under exactly [key]. *)
Definition lookup (h : Header) (key : gostring) : option (list gostring) :=
  match find (fun kv => eqb (fst kv) key) h with
  | Some kv => Some (snd kv)
  | None => None
  end.

End http.

(** ** Package proxy: the plain-HTTP path (handler.go) *)

Module url.

(** The fields of [url.URL] that [handleHTTP] reads and writes. *)
Record URL : Type := mkURL {
  Scheme : gostring;
  Host : gostring
}.

End url.

Module handler.
Import strings blocker.

(** The value fields of [*http.Request] that [handleHTTP] reads or writes. *)
Record Request : Type := mkRequest {
  Method : gostring;
  Host : gostring;
  RequestURI : gostring
}.

(** The objects behind the pointer fields [r.URL] and [r.Header].  The copy
    [*outReq = *r] copies the two pointers, not the objects: the inbound and
    the outbound request share them, and there is one of each. *)
Record Pointees : Type := mkPointees {
  URL : url.URL;
  Header : http.Header
}.

(** [*http.Response]: [resp.StatusCode], [resp.Header], and the bytes that
    [resp.Body] delivers. *)
Record Response : Type := mkResponse {
  StatusCode : Z;
  ResponseHeader : http.Header;
  Body : gostring
}.

(** What [h.transport.RoundTrip(outReq)] answers to a request and the objects
    it points to: an error ([inl]) or a response. *)
Record World : Type := mkWorld {
  transport : Request -> Pointees -> gostring + Response
}.

(** The calls of the handler, in their order: [w.Header().Set(key, value)],
    [w.Header().Add(key, value)], [w.WriteHeader(code)], [w.Write(data)],
    [http.Error(w, msg, code)], [h.transport.RoundTrip(outReq)] with the
    objects [outReq] points to at that moment, [io.Copy(w, resp.Body)] and
    the deferred [resp.Body.Close()]. *)
Inductive Action : Type :=
| HeaderSet (key value : gostring)
| HeaderAdd (key value : gostring)
| WriteHeader (code : Z)
| Write (data : gostring)
| HttpError (msg : gostring) (code : Z)
| RoundTrip (outReq : Request) (objects : Pointees)
| Copy (body : gostring)
| BodyClose.

Definition hopHeaders : list gostring :=
  ["Connection" : gostring; "Keep-Alive" : gostring;
   "Proxy-Authenticate" : gostring; "Proxy-Authorization" : gostring;
   "Te" : gostring; "Trailers" : gostring;
   "Transfer-Encoding" : gostring; "Upgrade" : gostring].

(** The loop of [removeHopHeaders] over the names that remain. *)
Fixpoint removeHopHeaders_loop (names : list gostring) (header : http.Header)
  : http.Header :=
  match names with
  | [] => header
  | h :: rest => removeHopHeaders_loop rest (http.Del header h)
  end.

Definition removeHopHeaders (header : http.Header) : http.Header :=
  removeHopHeaders_loop hopHeaders header.

Definition LF : gostring := ["010"%char].
Definition DQ : gostring := ["034"%char].

Fixpoint joinLF (lines : list gostring) : gostring :=
  match lines with
  | [] => []
  | [l] => l
  | l :: rest => l ++ LF ++ joinLF rest
  end.

(** The page of [serveBlocked], line by line. *)
Definition blockedPage : gostring :=
  joinLF
    [("<!DOCTYPE html>" : gostring);
     ("<html>" : gostring);
     ("<head>" : gostring);
     ("    <title>Blocked</title>" : gostring);
     ("    <style>" : gostring);
     ("        body {" : gostring);
     ("            font-family: -apple-system, BlinkMacSystemFont, " +++ DQ +++ "Segoe UI" +++ DQ +++ ", Roboto, sans-serif;");
     ("            display: flex;" : gostring);
     ("            justify-content: center;" : gostring);
     ("            align-items: center;" : gostring);
     ("            height: 100vh;" : gostring);
     ("            margin: 0;" : gostring);
     ("            background: #f5f5f5;" : gostring);
     ("        }" : gostring);
     ("        .container {" : gostring);
     ("            text-align: center;" : gostring);
     ("            padding: 40px;" : gostring);
     ("            background: white;" : gostring);
     ("            border-radius: 10px;" : gostring);
     ("            box-shadow: 0 2px 10px rgba(0,0,0,0.1);" : gostring);
     ("        }" : gostring);
     ("        h1 { color: #e74c3c; margin-bottom: 10px; }" : gostring);
     ("        p { color: #666; }" : gostring);
     ("    </style>" : gostring);
     ("</head>" : gostring);
     ("<body>" : gostring);
     ("    <div class=" +++ DQ +++ "container" +++ DQ +++ ">");
     ("        <h1>Access Blocked</h1>" : gostring);
     ("        <p>This website has been blocked by Network Blocker.</p>" : gostring);
     ("    </div>" : gostring);
     ("</body>" : gostring);
     ("</html>" : gostring)].

(** [serveBlocked] *)
Definition serveBlocked : list Action :=
  [HeaderSet "Content-Type" "text/html; charset=utf-8";
   WriteHeader proxy.StatusForbidden;
   Write blockedPage].

(** The loops that copy the response header:
    [for key, values := range resp.Header { for _, value := range values {
       w.Header().Add(key, value) } }] *)
Fixpoint copyValues (key : gostring) (values : list gostring) : list Action :=
  match values with
  | [] => []
  | value :: rest => HeaderAdd key value :: copyValues key rest
  end.

Fixpoint copyHeader (header : http.Header) : list Action :=
  match header with
  | [] => []
  | (key, values) :: rest => copyValues key values ++ copyHeader rest
  end.

(** [handleHTTP]: the engine afterwards, what the engine logged, the calls of
    the handler, and the objects of the request afterwards. *)
Definition handleHTTP (env : World) (b : Blocker) (r : Request) (objects : Pointees)
  : Blocker * list LogRecord * list Action * Pointees :=
  let host := Host r in
  let host := if eqb host [] then url.Host (URL objects) else host in
  let '(blocked, b', logged) := IsBlocked b host in
  if blocked then
    (b', logged, serveBlocked, objects)
  else
    let outReq :=
      {| Method := Method r; Host := Host r; RequestURI := [] |} in
    let u := URL objects in
    let u := if eqb (url.Scheme u) [] then url.mkURL "http" (url.Host u) else u in
    let u := if eqb (url.Host u) [] then url.mkURL (url.Scheme u) host else u in
    let objects' :=
      {| URL := u; Header := removeHopHeaders (Header objects) |} in
    match transport env outReq objects' with
    | inl err =>
        (b', logged,
         [RoundTrip outReq objects';
          HttpError ("Proxy error: " +++ err) proxy.StatusBadGateway],
         objects')
    | inr resp =>
        let header := removeHopHeaders (ResponseHeader resp) in
        (b', logged,
         RoundTrip outReq objects'
           :: copyHeader header
           ++ [WriteHeader (StatusCode resp); Copy (Body resp); BodyClose],
         objects')
    end.

End handler.

(** ** Package config: the blacklist of the configuration (config.go) *)

Module config.
Import strings.

Record ProxyConfig : Type := mkProxyConfig {
  Port : Z;
  Bind : gostring
}.

Record LoggingConfig : Type := mkLoggingConfig {
  Level : gostring;
  LogBlocked : bool;
  LogAllowed : bool
}.

Record Config : Type := mkConfig {
  Proxy : ProxyConfig;
  Blacklist : list gostring;
  Logging : LoggingConfig
}.

(** The struct [Manager] without its mutex; [config] is a pointer, [None]
    is [nil]. *)
Record Manager : Type := mkManager {
  config : option Config;
  configPath : gostring
}.

(** The outside world: [os.ReadFile], [yaml.Unmarshal] into a zero [Config],
    [yaml.Marshal] and [os.WriteFile].  An error is its message; [inl] is the
    error of a call that also returns a value. *)
Record World : Type := mkWorld {
  ReadFile : gostring -> gostring + gostring;
  Unmarshal : gostring -> gostring + Config;
  Marshal : option Config -> gostring + gostring;
  WriteFile : gostring -> gostring -> option gostring
}.

(** A call of [os.WriteFile(name, data, perm)]. *)
Inductive Written : Type :=
| Wrote (name data : gostring) (perm : Z).

Definition NewManager (configPath : gostring) : Manager :=
  {| config := None; configPath := configPath |}.

(** [Load]: the manager afterwards and the error returned. *)
Definition Load (env : World) (m : Manager) : Manager * option gostring :=
  match ReadFile env (configPath m) with
  | inl err => (m, Some ("failed to read config file: " +++ err))
  | inr data =>
      match Unmarshal env data with
      | inl err => (m, Some ("failed to parse config file: " +++ err))
      | inr cfg =>
          let port := if Port (Proxy cfg) =? 0 then 8080 else Port (Proxy cfg) in
          let bind :=
            if eqb (Bind (Proxy cfg)) [] then ("127.0.0.1" : gostring)
            else Bind (Proxy cfg) in
          let level :=
            if eqb (Level (Logging cfg)) [] then ("info" : gostring)
            else Level (Logging cfg) in
          let cfg :=
            {| Proxy := {| Port := port; Bind := bind |};
               Blacklist := Blacklist cfg;
               Logging := {| Level := level;
                             LogBlocked := LogBlocked (Logging cfg);
                             LogAllowed := LogAllowed (Logging cfg) |} |} in
          ({| config := Some cfg; configPath := configPath m |}, None)
      end
  end.

Definition Get (m : Manager) : option Config := config m.

(** [GetBlacklist]; a [nil] slice is the empty list. *)
Definition GetBlacklist (m : Manager) : list gostring :=
  match config m with
  | None => []
  | Some cfg => Blacklist cfg
  end.

(** [save]: the error returned and the file written. *)
Definition save (env : World) (m : Manager) : option gostring * list Written :=
  match Marshal env (config m) with
  | inl err => (Some ("failed to marshal config: " +++ err), [])
  | inr data =>
      (WriteFile env (configPath m) data, [Wrote (configPath m) data 420])
  end.

(** The loop of [AddToBlacklist]: whether it returns from inside. *)
Fixpoint AddToBlacklist_loop (blacklist : list gostring) (domain : gostring) : bool :=
  match blacklist with
  | [] => false
  | d :: rest => if eqb d domain then true else AddToBlacklist_loop rest domain
  end.

Definition withBlacklist (cfg : Config) (blacklist : list gostring) : Config :=
  {| Proxy := Proxy cfg; Blacklist := blacklist; Logging := Logging cfg |}.

(** [AddToBlacklist]: the manager afterwards, the error returned and the
    file written; [None] is the panic of [m.config.Blacklist] on a [nil]
    [m.config]. *)
Definition AddToBlacklist (env : World) (m : Manager) (domain : gostring)
  : option (Manager * option gostring * list Written) :=
  match config m with
  | None => None
  | Some cfg =>
      if AddToBlacklist_loop (Blacklist cfg) domain then
        Some (m, Some ("domain " +++ domain +++ " already in blacklist"), [])
      else
        let m' :=
          {| config := Some (withBlacklist cfg (Blacklist cfg ++ [domain]));
             configPath := configPath m |} in
        Some (m', fst (save env m'), snd (save env m'))
  end.

(** The loop of [RemoveFromBlacklist]: [found] and [newList] at its end. *)
Fixpoint RemoveFromBlacklist_loop (blacklist : list gostring) (domain : gostring)
    (found : bool) (newList : list gostring) : bool * list gostring :=
  match blacklist with
  | [] => (found, newList)
  | d :: rest =>
      if eqb d domain then RemoveFromBlacklist_loop rest domain true newList
      else RemoveFromBlacklist_loop rest domain found (newList ++ [d])
  end.

Definition RemoveFromBlacklist (env : World) (m : Manager) (domain : gostring)
  : option (Manager * option gostring * list Written) :=
  match config m with
  | None => None
  | Some cfg =>
      let '(found, newList) :=
        RemoveFromBlacklist_loop (Blacklist cfg) domain false [] in
      if negb found then
        Some (m, Some ("domain " +++ domain +++ " not found in blacklist"), [])
      else
        let m' :=
          {| config := Some (withBlacklist cfg newList);
             configPath := configPath m |} in
        Some (m', fst (save env m'), snd (save env m'))
  end.

End config.

(** * cmd/blocker/main.go *)

Module cmd.

(** The engine that [runProxy] hands to the proxy server:
    [b := blocker.New()], [b.SetLogging(cfg.Logging.LogBlocked,
    cfg.Logging.LogAllowed)], [b.UpdateBlacklist(cfg.Blacklist)]. *)
Definition runProxy_blocker (cfg : config.Config) : blocker.Blocker :=
  let b := blocker.New in
  let b := blocker.SetLogging b (config.LogBlocked (config.Logging cfg))
                                (config.LogAllowed (config.Logging cfg)) in
  fst (blocker.UpdateBlacklist b (config.Blacklist cfg)).

End cmd.

(** ** Vocabulary of the properties *)

Module spec.

(** [d] starts with [p], ends with [x], contains [x]. *)
Definition starts_with (d p : gostring) : Prop := exists v, d = p ++ v.
Definition ends_with (d x : gostring) : Prop := exists u, d = u ++ x.
Definition has_substring (d x : gostring) : Prop := exists u v, d = u ++ x ++ v.

(** [s[lo:hi]] does not panic. *)
Definition in_range (s : gostring) (lo hi : Z) : Prop :=
  0 <= lo <= hi /\ hi <= strings.len s.

(** [s] has no [':']. *)
Definition nocolon (s : gostring) : Prop := ~ In ":"%char s.

(** [s] has neither leading nor trailing white space. *)
Definition trimmed (s : gostring) : Prop := strings.TrimSpace s = s.

(** [s] is empty or begins (ends) with a byte that is not white space. *)
Definition no_leading_space (s : gostring) : Prop :=
  match s with
  | [] => True
  | c :: _ => strings.isSpace c = false
  end.

Definition no_trailing_space (s : gostring) : Prop := no_leading_space (rev s).

(** [d] is in the form in which [IsBlocked] hands a domain to the matchers. *)
Definition normalized (d : gostring) : Prop :=
  strings.ToLower (strings.TrimSpace d) = d.

(** The number of ['.'] in [s]. *)
Definition dots (s : gostring) : nat :=
  length (filter (fun c => Ascii.eqb c ".") s).

(** The decision under a blacklist: [UpdateBlacklist] on a fresh engine, then
    [IsBlocked]. *)
Definition Decide (blacklist : list gostring) (domain : gostring) : bool :=
  fst (fst (blocker.IsBlocked (fst (blocker.UpdateBlacklist blocker.New blacklist)) domain)).

(** The rule set of a source list: the entries that are not blank, compiled,
    in the order of the list. *)
Definition nonblank (p : gostring) : bool := negb (strings.eqb (strings.TrimSpace p) []).

Definition compile (patterns : list gostring) : list blocker.Matcher :=
  map blocker.CreateMatcher (filter nonblank patterns).

(** The form in which [IsBlocked] hands [domain] to the matchers. *)
Definition normalize (domain : gostring) : gostring :=
  strings.ToLower (strings.TrimSpace (blocker.stripPort domain)).

(** The result of [IsBlocked] and the engine it leaves. *)
Definition result (res : bool * blocker.Blocker * list blocker.LogRecord) : bool :=
  fst (fst res).
Definition engine (res : bool * blocker.Blocker * list blocker.LogRecord)
  : blocker.Blocker := snd (fst res).

(** A sequence of [IsBlocked] calls: the engine afterwards and the results. *)
Fixpoint calls (b : blocker.Blocker) (domains : list gostring)
  : blocker.Blocker * list bool :=
  match domains with
  | [] => (b, [])
  | d :: rest =>
      let res := blocker.IsBlocked b d in
      let '(b', rs) := calls (engine res) rest in
      (b', result res :: rs)
  end.

(** [n] calls of [IsBlocked] on the same domain. *)
Definition repeat_call (n : N) (b : blocker.Blocker) (d : gostring) : blocker.Blocker :=
  N.iter n (fun b' => engine (blocker.IsBlocked b' d)) b.

(** How many results are [r]. *)
Definition outcomes (r : bool) (rs : list bool) : Z :=
  Z.of_nat (length (filter (Bool.eqb r) rs)).

(** A counter holds an [int64]. *)
Definition int64 (z : Z) : Prop := blocker.MinInt64 <= z <= blocker.MaxInt64.

(** An engine for the examples: three entries, one of them blank. *)
Definition sample_engine : blocker.Blocker :=
  fst (blocker.UpdateBlacklist blocker.New
         ["*.tiktok.com" : gostring; "  " : gostring; "Google.*" : gostring]).

(** [m] is the first element of [ms] that satisfies [f]. *)
Definition first_such {A : Type} (f : A -> bool) (ms : list A) (m : A) : Prop :=
  exists before after,
    ms = before ++ m :: after /\ f m = true /\ Forall (fun x => f x = false) before.

End spec.

(** ** Vocabulary of the further properties *)

Module terms.

(** [key] is one of the names of [hopHeaders], byte for byte. *)
Definition hop (key : gostring) : bool :=
  existsb (strings.eqb key) handler.hopHeaders.

(** The host by which [handleHTTP] judges a request. *)
Definition judged (r : handler.Request) (objects : handler.Pointees) : gostring :=
  if strings.eqb (handler.Host r) [] then url.Host (handler.URL objects)
  else handler.Host r.

(** The parts of what [handleHTTP] returns. *)
Definition calls_of
    (res : blocker.Blocker * list blocker.LogRecord * list handler.Action
           * handler.Pointees) : list handler.Action := snd (fst res).
Definition objects_of
    (res : blocker.Blocker * list blocker.LogRecord * list handler.Action
           * handler.Pointees) : handler.Pointees := snd res.
Definition engine_of
    (res : blocker.Blocker * list blocker.LogRecord * list handler.Action
           * handler.Pointees) : blocker.Blocker := fst (fst (fst res)).
Definition logged_of
    (res : blocker.Blocker * list blocker.LogRecord * list handler.Action
           * handler.Pointees) : list blocker.LogRecord := snd (fst (fst res)).

(** A call that goes to the destination. *)
Definition isRoundTrip (a : handler.Action) : bool :=
  match a with
  | handler.RoundTrip _ _ => true
  | _ => false
  end.

(** The calls of [handleConnect] by kind. *)
Definition isHttpError (a : proxy.Action) : bool :=
  match a with
  | proxy.HttpError _ _ => true
  | _ => false
  end.

Definition isGoTransfer (a : proxy.Action) : bool :=
  match a with
  | proxy.GoTransfer _ _ => true
  | _ => false
  end.

End terms.

(** * Properties *)

(** Literal strings: no colon, trimmed, number of dots. *)
Ltac lit_nocolon := unfold spec.nocolon; simpl; intuition discriminate.
Ltac lit_trimmed := unfold spec.trimmed; reflexivity.

Ltac lit_dots H :=
  repeat match type of H with
         | context [spec.dots (str ?s)] =>
             let v := eval vm_compute in (spec.dots (str s)) in
             change (spec.dots (str s)) with v in H
         end.

(** ** Go strings *)

Section StringFacts.
Import strings spec.

Lemma len_app (a b : gostring) : len (a ++ b) = len a + len b.
Proof. unfold len. rewrite length_app. lia. Qed.

Lemma len_nonneg (a : gostring) : 0 <= len a.
Proof. unfold len. lia. Qed.

Lemma eqb_eq (a b : gostring) : eqb a b = true <-> a = b.
Proof.
  revert b. induction a as [|x a IH]; intros [|y b]; simpl; split;
    try congruence; try reflexivity.
  - intros H. apply andb_true_iff in H as [Hx Hab].
    apply Ascii.eqb_eq in Hx. apply IH in Hab. congruence.
  - intros H. injection H as -> ->. apply andb_true_iff. split.
    + apply Ascii.eqb_refl.
    + now apply IH.
Qed.

Lemma eqb_refl (a : gostring) : eqb a a = true.
Proof. now apply eqb_eq. Qed.

Lemma eqb_neq (a b : gostring) : eqb a b = false <-> a <> b.
Proof.
  split.
  - intros H E. apply eqb_eq in E. congruence.
  - intros H. destruct (eqb a b) eqn:E; [apply eqb_eq in E; contradiction | reflexivity].
Qed.

Lemma slice_prefix (p v : gostring) : slice (p ++ v) 0 (len p) = p.
Proof.
  unfold slice, len. simpl. rewrite Z.sub_0_r, Nat2Z.id.
  rewrite firstn_app, Nat.sub_diag, firstn_all. simpl. apply app_nil_r.
Qed.

Lemma slice_suffix (u x : gostring) : slice (u ++ x) (len u) (len (u ++ x)) = x.
Proof.
  unfold slice. rewrite len_app. unfold len.
  replace (Z.of_nat (length u) + Z.of_nat (length x) - Z.of_nat (length u))
    with (Z.of_nat (length x)) by lia.
  rewrite !Nat2Z.id, skipn_app, skipn_all, Nat.sub_diag. simpl. apply firstn_all.
Qed.

Lemma slice_split (s : gostring) (k : Z) :
  0 <= k <= len s -> s = slice s 0 k ++ slice s k (len s).
Proof.
  intros Hk. unfold slice, len in *. simpl. rewrite Z.sub_0_r.
  replace (Z.to_nat (Z.of_nat (length s) - k)) with (length s - Z.to_nat k)%nat by lia.
  rewrite <- (length_skipn (Z.to_nat k) s), firstn_all.
  symmetry. apply firstn_skipn.
Qed.

Lemma len_slice_0 (s : gostring) (k : Z) : 0 <= k <= len s -> len (slice s 0 k) = k.
Proof.
  intros Hk. unfold slice, len in *. simpl. rewrite Z.sub_0_r, length_firstn. lia.
Qed.

Lemma HasPrefix_spec (s p : gostring) : HasPrefix s p = true <-> starts_with s p.
Proof.
  unfold HasPrefix, starts_with. rewrite andb_true_iff, Z.leb_le, eqb_eq. split.
  - intros [Hl He]. exists (slice s (len p) (len s)).
    rewrite <- He at 1. apply slice_split. pose proof (len_nonneg p). lia.
  - intros [v ->]. split.
    + rewrite len_app. pose proof (len_nonneg v). lia.
    + apply slice_prefix.
Qed.

Lemma HasSuffix_spec (s x : gostring) : HasSuffix s x = true <-> ends_with s x.
Proof.
  unfold HasSuffix, ends_with. rewrite andb_true_iff, Z.leb_le, eqb_eq. split.
  - intros [Hl He]. exists (slice s 0 (len s - len x)).
    rewrite <- He at 2. apply slice_split. pose proof (len_nonneg x). lia.
  - intros [u ->]. split.
    + rewrite len_app. pose proof (len_nonneg u). lia.
    + replace (len (u ++ x) - len x) with (len u) by (rewrite len_app; lia).
      apply slice_suffix.
Qed.

Lemma HasPrefix_false (s p : gostring) : HasPrefix s p = false <-> ~ starts_with s p.
Proof.
  rewrite <- HasPrefix_spec. destruct (HasPrefix s p); split; congruence.
Qed.

Lemma HasSuffix_false (s x : gostring) : HasSuffix s x = false <-> ~ ends_with s x.
Proof.
  rewrite <- HasSuffix_spec. destruct (HasSuffix s x); split; congruence.
Qed.

Lemma has_substring_cons (c : ascii) (s x : gostring) :
  has_substring (c :: s) x <-> starts_with (c :: s) x \/ has_substring s x.
Proof.
  split.
  - intros [[|c' u] [v E]].
    + left. now exists v.
    + right. exists u, v. simpl in E. now injection E.
  - intros [[v E] | [u [v E]]].
    + now exists [], v.
    + exists (c :: u), v. simpl. now f_equal.
Qed.

Lemma Index_at_spec (x s : gostring) (i : Z) :
  0 <= i -> (0 <=? Index_at s x i) = true <-> has_substring s x.
Proof.
  revert i. induction s as [|c s IH]; intros i Hi; simpl.
  - destruct (HasPrefix [] x) eqn:E.
    + split; [intros _|intros _; now apply Z.leb_le].
      apply HasPrefix_spec in E as [v E]. now exists [], v.
    + split; [intros H; discriminate|].
      intros [u [v H]]. apply HasPrefix_false in E. exfalso. apply E.
      destruct u; [|discriminate]. now exists v.
  - rewrite has_substring_cons. destruct (HasPrefix (c :: s) x) eqn:E.
    + split; [intros _|intros _; now apply Z.leb_le].
      left. now apply HasPrefix_spec.
    + rewrite IH by lia. apply HasPrefix_false in E. tauto.
Qed.

Lemma Contains_spec (s x : gostring) : Contains s x = true <-> has_substring s x.
Proof. unfold Contains, Index. apply Index_at_spec. lia. Qed.

Lemma Contains_false (s x : gostring) : Contains s x = false <-> ~ has_substring s x.
Proof.
  rewrite <- Contains_spec. destruct (Contains s x); split; congruence.
Qed.

End StringFacts.

(** *** Slices in the middle, substrings and lengths *)

Section SliceFacts.
Import strings spec.

Lemma slice_middle (u m w : gostring) :
  slice (u ++ m ++ w) (len u) (len (u ++ m ++ w) - len w) = m.
Proof.
  unfold slice. rewrite !len_app. unfold len.
  replace (Z.of_nat (length u) + (Z.of_nat (length m) + Z.of_nat (length w))
           - Z.of_nat (length w) - Z.of_nat (length u))
    with (Z.of_nat (length m)) by lia.
  rewrite !Nat2Z.id, skipn_app, skipn_all, Nat.sub_diag. simpl.
  rewrite firstn_app, Nat.sub_diag, firstn_all. simpl. apply app_nil_r.
Qed.

Lemma slice_tail (c : ascii) (s : gostring) : slice (c :: s) 1 (len (c :: s)) = s.
Proof. apply (slice_suffix [c] s). Qed.

Lemma slice_init (s : gostring) (c : ascii) :
  slice (s ++ [c]) 0 (len (s ++ [c]) - 1) = s.
Proof.
  pose proof (slice_middle [] s [c]) as H. simpl in H.
  change (len []) with 0 in H. change (len [c]) with 1 in H. exact H.
Qed.

Lemma has_substring_len (d x : gostring) : has_substring d x -> len x <= len d.
Proof.
  intros [u [v ->]]. rewrite !len_app.
  pose proof (len_nonneg u). pose proof (len_nonneg v). lia.
Qed.

Lemma ends_with_len (d x : gostring) : ends_with d x -> len x <= len d.
Proof. intros [u ->]. rewrite len_app. pose proof (len_nonneg u). lia. Qed.

Lemma len_zero (s : gostring) : len s = 0 <-> s = [].
Proof.
  unfold len. destruct s; simpl; split; try reflexivity; try discriminate; lia.
Qed.

Lemma len_cons (c : ascii) (s : gostring) : len (c :: s) = 1 + len s.
Proof. unfold len. simpl length. lia. Qed.

End SliceFacts.

(** *** The last colon *)

Section ColonFacts.
Import strings spec.

Lemma HasPrefix_colon_nil : HasPrefix [] ":" = false.
Proof. reflexivity. Qed.

Lemma HasPrefix_colon_cons (c : ascii) (s : gostring) :
  HasPrefix (c :: s) ":" = Ascii.eqb c ":".
Proof.
  destruct (Ascii.eqb c ":") eqn:E.
  - apply Ascii.eqb_eq in E. subst c. apply HasPrefix_spec. now exists s.
  - apply HasPrefix_false. intros [v H]. injection H as H _.
    apply Ascii.eqb_neq in E. contradiction.
Qed.

Lemma nocolon_cons (c : ascii) (s : gostring) :
  nocolon (c :: s) <-> Ascii.eqb c ":" = false /\ nocolon s.
Proof.
  unfold nocolon. simpl. rewrite Ascii.eqb_neq. split.
  - intros H. split; [intros ->|intros Hs]; apply H; auto.
  - intros [Hc Hs] [E|Hi]; contradiction.
Qed.

Lemma nocolon_app (a b : gostring) : nocolon (a ++ b) <-> nocolon a /\ nocolon b.
Proof. unfold nocolon. rewrite in_app_iff. tauto. Qed.

Lemma LastIndex_at_nocolon (s : gostring) (i found : Z) :
  nocolon s -> LastIndex_at s ":" i found = found.
Proof.
  revert i found. induction s as [|c s IH]; intros i found Hs.
  - reflexivity.
  - apply nocolon_cons in Hs as [Hc Hs]. simpl LastIndex_at.
    rewrite HasPrefix_colon_cons, Hc. now apply IH.
Qed.

Lemma LastIndex_at_last (h t : gostring) (i found : Z) :
  nocolon t -> LastIndex_at (h ++ ":" +++ t) ":" i found = i + len h.
Proof.
  intros Ht. revert i found. induction h as [|c h IH]; intros i found.
  - simpl app. simpl LastIndex_at. rewrite HasPrefix_colon_cons.
    simpl. rewrite LastIndex_at_nocolon by assumption. change (len []) with 0. lia.
  - simpl app. simpl LastIndex_at. rewrite IH, len_cons. lia.
Qed.

(** [LastIndex(s, ":")] is -1 exactly on the strings without a colon, and
    the length of what precedes the last colon otherwise. *)
Lemma LastIndex_nocolon (s : gostring) : nocolon s -> LastIndex s ":" = -1.
Proof. apply LastIndex_at_nocolon. Qed.

Lemma LastIndex_last (h t : gostring) :
  nocolon t -> LastIndex (h ++ ":" +++ t) ":" = len h.
Proof. intros Ht. unfold LastIndex. rewrite LastIndex_at_last by assumption. lia. Qed.

(** Every string with a colon splits at its last colon, in one way only. *)
Lemma last_colon_split (s : gostring) :
  In ":"%char s -> exists h t, s = h ++ ":" +++ t /\ nocolon t.
Proof.
  induction s as [|c s IH]; intros Hin; [contradiction|].
  destruct (in_dec ascii_dec ":"%char s) as [Hs|Hs].
  - destruct (IH Hs) as [h [t [-> Ht]]]. now exists (c :: h), t.
  - destruct Hin as [->|Hin]; [|contradiction]. now exists [], s.
Qed.

Lemma last_colon_unique (h1 t1 h2 t2 : gostring) :
  h1 ++ ":" +++ t1 = h2 ++ ":" +++ t2 -> nocolon t1 -> nocolon t2 ->
  h1 = h2 /\ t1 = t2.
Proof.
  revert h2. induction h1 as [|c h1 IH]; intros [|c2 h2] E H1 H2; simpl in E.
  - injection E as E. auto.
  - injection E as Ec E. subst t1. exfalso. apply H1.
    apply in_or_app. right. now left.
  - injection E as Ec E. subst t2. exfalso. apply H2.
    apply in_or_app. right. now left.
  - injection E as Ec E. destruct (IH h2 E H1 H2) as [-> ->]. subst. auto.
Qed.

Lemma stripPort_last (h t : gostring) :
  nocolon t -> blocker.stripPort (h ++ ":" +++ t) = h.
Proof.
  intros Ht. unfold blocker.stripPort. rewrite LastIndex_last by assumption.
  pose proof (len_nonneg h).
  replace (len h =? -1) with false by (symmetry; apply Z.eqb_neq; lia).
  apply slice_prefix.
Qed.

Lemma stripPort_nocolon (s : gostring) : nocolon s -> blocker.stripPort s = s.
Proof. intros Hs. unfold blocker.stripPort. now rewrite LastIndex_nocolon. Qed.

End ColonFacts.

(** *** No slice expression of the sources is out of range *)

Section Ranges.
Import strings blocker spec.

Lemma HasPrefix_len (s p : gostring) : HasPrefix s p = true -> len p <= len s.
Proof. unfold HasPrefix. rewrite andb_true_iff, Z.leb_le. tauto. Qed.

Lemma HasSuffix_len (s x : gostring) : HasSuffix s x = true -> len x <= len s.
Proof. unfold HasSuffix. rewrite andb_true_iff, Z.leb_le. tauto. Qed.

Lemma LastIndex_at_bounds (s substr : gostring) (i found : Z) :
  LastIndex_at s substr i found = found \/
  i <= LastIndex_at s substr i found <= i + len s.
Proof.
  revert i found. induction s as [|c s IH]; intros i found; simpl.
  - change (len []) with 0. destruct (HasPrefix [] substr); [right; lia | now left].
  - rewrite len_cons. pose proof (len_nonneg s) as Hs.
    destruct (HasPrefix (c :: s) substr).
    + destruct (IH (i + 1) i) as [-> | Hi]; right; lia.
    + destruct (IH (i + 1) found) as [-> | Hi]; [now left | right; lia].
Qed.

(** The guards of [NewPrefixWildcardMatcher], [NewSuffixWildcardMatcher],
    [NewDoubleWildcardMatcher], of the [Match] methods and of [IsBlocked]
    keep every slice expression within its string. *)
Lemma slices_in_range :
  (forall pattern : gostring,
      HasPrefix pattern "*." = true -> in_range pattern 1 (len pattern)) /\
  (forall pattern : gostring,
      HasSuffix pattern ".*" = true -> in_range pattern 0 (len pattern - 1)) /\
  (forall pattern : gostring,
      HasPrefix pattern "*." && HasSuffix pattern ".*" = true ->
      in_range pattern 1 (len pattern - 1)) /\
  (forall suffix : gostring,
      eqb suffix [] = false -> in_range suffix 1 (len suffix)) /\
  (forall domain prefix : gostring,
      HasPrefix domain prefix = true -> in_range domain (len prefix) (len domain)) /\
  (forall domain : gostring,
      LastIndex domain ":" <> -1 -> in_range domain 0 (LastIndex domain ":")).
Proof.
  unfold in_range. split; [|split; [|split; [|split; [|split]]]].
  - intros pattern H. apply HasPrefix_len in H. change (len "*.") with 2 in H. lia.
  - intros pattern H. apply HasSuffix_len in H. change (len ".*") with 2 in H. lia.
  - intros pattern H. apply andb_true_iff in H as [H1 H2].
    apply HasPrefix_len in H1. change (len "*.") with 2 in H1. lia.
  - intros suffix H. apply eqb_neq in H. destruct suffix as [|c r]; [congruence|].
    rewrite len_cons. pose proof (len_nonneg r). lia.
  - intros domain prefix H. apply HasPrefix_len in H.
    pose proof (len_nonneg prefix). lia.
  - intros domain H. unfold LastIndex in *.
    destruct (LastIndex_at_bounds domain ":" 0 (-1)) as [E | E]; [congruence | lia].
Qed.

End Ranges.

(** *** Trimming and lower-casing *)

Section NormalizeFacts.
Import strings spec.

Lemma TrimLeft_no_leading_space (s : gostring) : no_leading_space (TrimLeft s).
Proof.
  induction s as [|c s IH]; simpl; [exact I|].
  destruct (isSpace c) eqn:E; [exact IH | exact E].
Qed.

Lemma TrimLeft_id (s : gostring) : no_leading_space s -> TrimLeft s = s.
Proof. destruct s as [|c s]; simpl; [reflexivity|]. now intros ->. Qed.

Lemma TrimLeft_suffix (s : gostring) : exists sp, s = sp ++ TrimLeft s.
Proof.
  induction s as [|c s [sp IH]]; simpl.
  - now exists [].
  - destruct (isSpace c).
    + exists (c :: sp). simpl. now f_equal.
    + now exists [].
Qed.

Lemma TrimRight_prefix (s : gostring) : exists sp, s = TrimRight s ++ sp.
Proof.
  unfold TrimRight. destruct (TrimLeft_suffix (rev s)) as [sp E].
  exists (rev sp). rewrite <- rev_app_distr, <- E. symmetry. apply rev_involutive.
Qed.

Lemma TrimRight_no_trailing_space (s : gostring) : no_trailing_space (TrimRight s).
Proof.
  unfold no_trailing_space, TrimRight. rewrite rev_involutive. apply TrimLeft_no_leading_space.
Qed.

Lemma TrimRight_id (s : gostring) : no_trailing_space s -> TrimRight s = s.
Proof.
  unfold no_trailing_space, TrimRight. intros H. rewrite TrimLeft_id by assumption.
  apply rev_involutive.
Qed.

Lemma TrimRight_no_leading_space (s : gostring) : no_leading_space s -> no_leading_space (TrimRight s).
Proof.
  intros H. destruct (TrimRight_prefix s) as [sp E].
  destruct (TrimRight s) as [|c r]; [exact I|].
  rewrite E in H. exact H.
Qed.

Lemma trimmed_iff (s : gostring) : trimmed s <-> no_leading_space s /\ no_trailing_space s.
Proof.
  unfold trimmed, TrimSpace. split.
  - intros H. rewrite <- H. split.
    + apply TrimRight_no_leading_space, TrimLeft_no_leading_space.
    + apply TrimRight_no_trailing_space.
  - intros [Hf Hl]. rewrite TrimLeft_id by assumption. now apply TrimRight_id.
Qed.

Lemma TrimSpace_trimmed (s : gostring) : trimmed (TrimSpace s).
Proof.
  apply trimmed_iff. unfold TrimSpace. split.
  - apply TrimRight_no_leading_space, TrimLeft_no_leading_space.
  - apply TrimRight_no_trailing_space.
Qed.

Lemma no_leading_space_app (a b : gostring) : no_leading_space a -> no_leading_space b -> no_leading_space (a ++ b).
Proof. destruct a; simpl; auto. Qed.

Lemma no_leading_space_app_l (a b : gostring) : a <> [] -> no_leading_space a -> no_leading_space (a ++ b).
Proof. destruct a; simpl; [congruence | auto]. Qed.

Lemma trimmed_app (a b : gostring) : trimmed a -> trimmed b -> trimmed (a ++ b).
Proof.
  rewrite !trimmed_iff. unfold no_trailing_space. rewrite rev_app_distr.
  intros [Ha1 Ha2] [Hb1 Hb2]. split; now apply no_leading_space_app.
Qed.

Lemma isSpace_lowerByte (c : ascii) : isSpace (lowerByte c) = isSpace c.
Proof.
  destruct c as [[] [] [] [] [] [] [] []]; reflexivity.
Qed.

Lemma lowerByte_idem (c : ascii) : lowerByte (lowerByte c) = lowerByte c.
Proof.
  destruct c as [[] [] [] [] [] [] [] []]; reflexivity.
Qed.

(** Lower-casing neither produces nor removes a ['*'], a ['.'] or a [':']. *)
Lemma lowerByte_punct (c : ascii) :
  (lowerByte c = "*"%char -> c = "*"%char) /\
  (lowerByte c = "."%char -> c = "."%char) /\
  (lowerByte c = ":"%char -> c = ":"%char).
Proof.
  destruct c as [[] [] [] [] [] [] [] []]; repeat split; intros H;
    solve [reflexivity | discriminate H].
Qed.

Lemma TrimLeft_ToLower (s : gostring) : TrimLeft (ToLower s) = ToLower (TrimLeft s).
Proof.
  induction s as [|c s IH]; simpl; [reflexivity|].
  rewrite isSpace_lowerByte. now destruct (isSpace c).
Qed.

Lemma ToLower_rev (s : gostring) : ToLower (rev s) = rev (ToLower s).
Proof. apply map_rev. Qed.

Lemma TrimSpace_ToLower (s : gostring) : TrimSpace (ToLower s) = ToLower (TrimSpace s).
Proof.
  unfold TrimSpace, TrimRight.
  now rewrite TrimLeft_ToLower, <- ToLower_rev, TrimLeft_ToLower, ToLower_rev.
Qed.

Lemma ToLower_idem (s : gostring) : ToLower (ToLower s) = ToLower s.
Proof.
  unfold ToLower. rewrite map_map. apply map_ext. apply lowerByte_idem.
Qed.

Lemma ToLower_app (a b : gostring) : ToLower (a ++ b) = ToLower a ++ ToLower b.
Proof. apply map_app. Qed.

Lemma trimmed_ToLower (s : gostring) : trimmed s -> trimmed (ToLower s).
Proof. unfold trimmed. intros H. now rewrite TrimSpace_ToLower, H. Qed.

Lemma normalized_norm (s : gostring) : normalized (ToLower (TrimSpace s)).
Proof.
  unfold normalized. rewrite TrimSpace_ToLower, ToLower_idem.
  now rewrite (TrimSpace_trimmed s).
Qed.

Lemma nocolon_ToLower (s : gostring) : nocolon s -> nocolon (ToLower s).
Proof.
  unfold nocolon, ToLower. intros H Hin. apply in_map_iff in Hin as [c [Hc Hin]].
  apply lowerByte_punct in Hc. now subst c.
Qed.

Lemma starts_with_ToLower_star_dot (s : gostring) :
  starts_with (ToLower s) "*." <-> starts_with s "*.".
Proof.
  split.
  - intros [v E]. destruct s as [|a [|b s]]; try discriminate E.
    simpl in E. injection E as Ea Eb _.
    apply lowerByte_punct in Ea. apply lowerByte_punct in Eb. subst. now exists s.
  - intros [v ->]. now exists (ToLower v).
Qed.

Lemma ends_with_ToLower_dot_star (s : gostring) :
  ends_with (ToLower s) ".*" <-> ends_with s ".*".
Proof.
  split.
  - intros [u E]. unfold ToLower in E. apply map_eq_app in E as [u' [w [-> [_ Ew]]]].
    destruct w as [|a [|b [|c w]]]; try discriminate Ew.
    simpl in Ew. injection Ew as Ea Eb.
    apply lowerByte_punct in Ea. apply lowerByte_punct in Eb. subst. now exists u'.
  - intros [u ->]. exists (ToLower u). apply ToLower_app.
Qed.

Lemma HasPrefix_ToLower_star_dot (s : gostring) :
  HasPrefix (ToLower s) "*." = HasPrefix s "*.".
Proof.
  destruct (HasPrefix s "*.") eqn:E.
  - apply HasPrefix_spec, starts_with_ToLower_star_dot, HasPrefix_spec, E.
  - apply HasPrefix_false. rewrite starts_with_ToLower_star_dot.
    now apply HasPrefix_false.
Qed.

Lemma HasSuffix_ToLower_dot_star (s : gostring) :
  HasSuffix (ToLower s) ".*" = HasSuffix s ".*".
Proof.
  destruct (HasSuffix s ".*") eqn:E.
  - apply HasSuffix_spec, ends_with_ToLower_dot_star, HasSuffix_spec, E.
  - apply HasSuffix_false. rewrite ends_with_ToLower_dot_star.
    now apply HasSuffix_false.
Qed.

End NormalizeFacts.

(** *** Counting dots *)

Section DotFacts.
Import strings spec.

Lemma dots_app (a b : gostring) : dots (a ++ b) = (dots a + dots b)%nat.
Proof. unfold dots. now rewrite filter_app, length_app. Qed.

Lemma dots_rev (s : gostring) : dots (rev s) = dots s.
Proof.
  induction s as [|c s IH]; [reflexivity|].
  simpl rev. rewrite dots_app, IH. change (c :: s) with ([c] ++ s).
  rewrite dots_app. apply Nat.add_comm.
Qed.

Lemma dots_TrimLeft (s : gostring) : dots (TrimLeft s) = dots s.
Proof.
  induction s as [|c s IH]; [reflexivity|]. simpl TrimLeft.
  destruct (isSpace c) eqn:E; [|reflexivity].
  rewrite IH. unfold dots. simpl filter.
  destruct (Ascii.eqb c ".") eqn:Ec; [|reflexivity].
  apply Ascii.eqb_eq in Ec. subst c. discriminate E.
Qed.

Lemma dots_TrimSpace (s : gostring) : dots (TrimSpace s) = dots s.
Proof.
  unfold TrimSpace, TrimRight.
  now rewrite dots_rev, dots_TrimLeft, dots_rev, dots_TrimLeft.
Qed.

Lemma eqb_dot_lowerByte (c : ascii) : Ascii.eqb (lowerByte c) "." = Ascii.eqb c ".".
Proof. destruct c as [[] [] [] [] [] [] [] []]; reflexivity. Qed.

Lemma dots_ToLower (s : gostring) : dots (ToLower s) = dots s.
Proof.
  unfold dots. induction s as [|c s IH]; [reflexivity|]. simpl.
  rewrite eqb_dot_lowerByte. destruct (Ascii.eqb c "."); simpl; now rewrite IH.
Qed.

Lemma has_substring_dots (d x : gostring) : has_substring d x -> (dots x <= dots d)%nat.
Proof. intros [u [v ->]]. rewrite !dots_app. lia. Qed.

Lemma ends_with_dots (d x : gostring) : ends_with d x -> (dots x <= dots d)%nat.
Proof. intros [u ->]. rewrite dots_app. lia. Qed.

Lemma starts_with_dots (d x : gostring) : starts_with d x -> (dots x <= dots d)%nat.
Proof. intros [u ->]. rewrite dots_app. lia. Qed.

End DotFacts.

(** *** Trimming a string with a fixed head or tail *)

Section TrimAppFacts.
Import strings spec.

Lemma TrimLeft_nil_app (s t : gostring) :
  TrimLeft s = [] -> TrimLeft (s ++ t) = TrimLeft t.
Proof.
  induction s as [|c s IH]; simpl; [reflexivity|].
  destruct (isSpace c); [exact IH | discriminate].
Qed.

Lemma TrimLeft_cons_app (s t : gostring) :
  TrimLeft s <> [] -> TrimLeft (s ++ t) = TrimLeft s ++ t.
Proof.
  induction s as [|c s IH]; simpl; [congruence|].
  destruct (isSpace c); [exact IH | reflexivity].
Qed.

(** Behind a head [a] that is itself trimmed and not empty, only the
    trailing white space of [x] goes. *)
Lemma TrimSpace_head (a x : gostring) :
  a <> [] -> trimmed a -> TrimSpace (a ++ x) = a ++ TrimRight x.
Proof.
  intros Ha Ht. apply trimmed_iff in Ht as [Hf Hl].
  unfold TrimSpace. rewrite TrimLeft_id by now apply no_leading_space_app_l.
  unfold TrimRight. rewrite rev_app_distr.
  destruct (TrimLeft (rev x)) as [|c r] eqn:E.
  - rewrite TrimLeft_nil_app by assumption.
    rewrite (TrimLeft_id (rev a)) by exact Hl. simpl. now rewrite rev_involutive, app_nil_r.
  - rewrite TrimLeft_cons_app by (rewrite E; discriminate).
    rewrite E, rev_app_distr, rev_involutive. reflexivity.
Qed.

(** In front of a tail [b] that is itself trimmed and not empty, a string
    without leading white space is left as it is. *)
Lemma TrimSpace_tail (x b : gostring) :
  b <> [] -> trimmed b -> no_leading_space x -> TrimSpace (x ++ b) = x ++ b.
Proof.
  intros Hb Ht Hx. apply trimmed_iff in Ht as [Hf Hl]. apply trimmed_iff. split.
  - now apply no_leading_space_app.
  - unfold no_trailing_space in *. rewrite rev_app_distr.
    destruct (rev b) as [|c r] eqn:E; [|exact Hl].
    apply (f_equal (@rev ascii)) in E. rewrite rev_involutive in E. contradiction.
Qed.

End TrimAppFacts.

(** ** Matchers *)

Section MatcherFacts.
Import strings blocker spec.

Lemma TrimSpace_idem (s : gostring) : TrimSpace (TrimSpace s) = TrimSpace s.
Proof. apply TrimSpace_trimmed. Qed.

(** [CreateMatcher] in one piece: the stored text is the trimmed, lower-cased
    pattern, and the tests may as well be made on it. *)
Lemma CreateMatcher_eq (p : gostring) :
  CreateMatcher p =
  let q := ToLower (TrimSpace p) in
  if HasPrefix q "*." && HasSuffix q ".*"
  then DoubleWildcardMatcher q (slice q 1 (len q - 1))
  else if HasPrefix q "*." then PrefixWildcardMatcher q (slice q 1 (len q))
  else if HasSuffix q ".*" then SuffixWildcardMatcher q (slice q 0 (len q - 1))
  else ExactMatcher q.
Proof.
  unfold CreateMatcher, NewDoubleWildcardMatcher, NewPrefixWildcardMatcher,
    NewSuffixWildcardMatcher, NewExactMatcher.
  cbv zeta. rewrite TrimSpace_idem.
  rewrite HasPrefix_ToLower_star_dot, HasSuffix_ToLower_dot_star.
  destruct (HasPrefix (TrimSpace p) "*."), (HasSuffix (TrimSpace p) ".*"); reflexivity.
Qed.

Lemma Pattern_CreateMatcher (p : gostring) :
  Pattern (CreateMatcher p) = ToLower (TrimSpace p).
Proof.
  rewrite CreateMatcher_eq. cbv zeta.
  destruct (HasPrefix _ "*."), (HasSuffix _ ".*"); reflexivity.
Qed.

Lemma CreateMatcher_TrimSpace (p : gostring) :
  CreateMatcher (TrimSpace p) = CreateMatcher p.
Proof. unfold CreateMatcher. now rewrite TrimSpace_idem. Qed.

Lemma kind_CreateMatcher (p : gostring) :
  kind (CreateMatcher p) =
  match HasPrefix (TrimSpace p) "*.", HasSuffix (TrimSpace p) ".*" with
  | true, true => DoubleWildcard
  | true, false => PrefixWildcard
  | false, true => SuffixWildcard
  | false, false => Exact
  end.
Proof.
  unfold CreateMatcher. cbv zeta.
  destruct (HasPrefix (TrimSpace p) "*."), (HasSuffix (TrimSpace p) ".*"); reflexivity.
Qed.

(** What each [Match] decides, in terms of the candidate as normalized by
    the method itself. *)
Lemma Match_Exact (x d : gostring) :
  Match (ExactMatcher x) d = true <->
  let d' := ToLower (TrimSpace d) in d' = x \/ ends_with d' ("." +++ x).
Proof.
  cbv zeta. unfold Match.
  destruct (eqb (ToLower (TrimSpace d)) x) eqn:E.
  - apply eqb_eq in E. tauto.
  - apply eqb_neq in E.
    destruct (HasSuffix (ToLower (TrimSpace d)) ("." +++ x)) eqn:F.
    + apply HasSuffix_spec in F. tauto.
    + apply HasSuffix_false in F. split; [discriminate | tauto].
Qed.

Lemma Match_Prefix (q x d : gostring) :
  Match (PrefixWildcardMatcher q ("." +++ x)) d = true <->
  let d' := ToLower (TrimSpace d) in ends_with d' ("." +++ x) /\ d' <> x.
Proof.
  cbv zeta. unfold Match. simpl eqb at 1. cbv iota.
  change (str "." ++ x) with ("."%char :: x). rewrite slice_tail.
  rewrite andb_true_iff, negb_true_iff, HasSuffix_spec, eqb_neq. reflexivity.
Qed.

Lemma Match_Suffix (q x d : gostring) :
  Match (SuffixWildcardMatcher q (x +++ ".")) d = true <->
  let d' := ToLower (TrimSpace d) in
  (exists r, r <> [] /\ d' = x +++ "." +++ r) \/ has_substring d' ("." +++ x +++ ".").
Proof.
  cbv zeta. unfold Match. set (d' := ToLower (TrimSpace d)).
  assert (Hne : eqb (x +++ ".") [] = false) by (apply eqb_neq; now destruct x).
  rewrite Hne.
  destruct (HasPrefix d' (x +++ ".")) eqn:E.
  - apply HasPrefix_spec in E as [v E]. cbv zeta.
    replace (slice d' (len (x +++ ".")) (len d')) with v
      by (rewrite E; symmetry; apply slice_suffix).
    rewrite Z.ltb_lt. split.
    + intros Hv. left. exists v. split.
      * intros ->. change (len []) with 0 in Hv. lia.
      * now rewrite E, <- app_assoc.
    + intros [[r [Hr Er]] | Hs].
      * rewrite E, <- app_assoc in Er. apply app_inv_head in Er.
        simpl in Er. injection Er as ->.
        pose proof (len_nonneg r). destruct (len_zero r) as [Hz _].
        destruct (Z.eq_dec (len r) 0) as [Z0|Z0]; [now apply Hz in Z0 | lia].
      * apply has_substring_len in Hs. rewrite E in Hs. simpl app in Hs.
        rewrite len_cons, !len_app in Hs.
        destruct v; [change (len []) with 0 in Hs; lia | rewrite len_cons].
        pose proof (len_nonneg v). lia.
  - apply HasPrefix_false in E.
    destruct (Contains d' ("." +++ x +++ ".")) eqn:F.
    + apply Contains_spec in F. tauto.
    + apply Contains_false in F. split; [discriminate|].
      intros [[r [_ Er]] | Hs]; [|contradiction].
      exfalso. apply E. exists r. now rewrite <- app_assoc.
Qed.

Lemma Match_Double (q x d : gostring) :
  Match (DoubleWildcardMatcher q ("." +++ x +++ ".")) d = true <->
  has_substring (ToLower (TrimSpace d)) ("." +++ x +++ ".").
Proof.
  unfold Match. simpl eqb at 1. cbv iota. apply Contains_spec.
Qed.

End MatcherFacts.

(** ** The rule engine *)

Section EngineFacts.
Import strings blocker spec.

Lemma UpdateBlacklist_loop_compile (ms : list Matcher) (patterns : list gostring) :
  UpdateBlacklist_loop ms patterns = ms ++ compile patterns.
Proof.
  revert ms. induction patterns as [|p rest IH]; intros ms; simpl.
  - symmetry. apply app_nil_r.
  - unfold compile. simpl filter. unfold nonblank at 1.
    destruct (eqb (TrimSpace p) []); simpl negb; cbv iota.
    + apply IH.
    + rewrite IH, <- app_assoc. simpl. now rewrite CreateMatcher_TrimSpace.
Qed.

Lemma matchers_UpdateBlacklist (b : Blocker) (patterns : list gostring) :
  matchers (fst (UpdateBlacklist b patterns)) = compile patterns.
Proof. simpl. apply UpdateBlacklist_loop_compile. Qed.

Lemma IsBlocked_loop_Some (ms : list Matcher) (d : gostring) (m : Matcher) :
  IsBlocked_loop ms d = Some m <-> first_such (fun x => Match x d) ms m.
Proof.
  induction ms as [|x ms IH]; simpl.
  - split; [discriminate|]. intros [before [after [E _]]]. now destruct before.
  - destruct (Match x d) eqn:Hx.
    + split.
      * intros H. injection H as <-. exists [], ms. auto.
      * intros [[|y before] [after [E [Hm Hb]]]]; simpl in E.
        -- injection E as <- _. reflexivity.
        -- injection E as <- _. inversion Hb; congruence.
    + rewrite IH. split.
      * intros [before [after [-> [Hm Hb]]]]. exists (x :: before), after. auto.
      * intros [[|y before] [after [E [Hm Hb]]]]; simpl in E.
        -- injection E as <- _. congruence.
        -- injection E as <- ->. exists before, after.
           inversion Hb; auto.
Qed.

Lemma IsBlocked_loop_None (ms : list Matcher) (d : gostring) :
  IsBlocked_loop ms d = None <-> Forall (fun x => Match x d = false) ms.
Proof.
  induction ms as [|x ms IH]; simpl.
  - split; auto.
  - destruct (Match x d) eqn:Hx.
    + split; [discriminate|]. intros H. inversion H; congruence.
    + rewrite IH. split; [auto|]. intros H. now inversion H.
Qed.

Lemma IsBlocked_result (b : Blocker) (domain : gostring) :
  result (IsBlocked b domain) = true <->
  Exists (fun m => Match m (normalize domain) = true) (matchers b).
Proof.
  unfold result, IsBlocked. fold (normalize domain).
  destruct (IsBlocked_loop (matchers b) (normalize domain)) as [m|] eqn:E; simpl.
  - apply IsBlocked_loop_Some in E as [before [after [-> [Hm _]]]].
    split; [intros _|reflexivity]. apply Exists_app. right. now left.
  - apply IsBlocked_loop_None in E. split; [discriminate|].
    intros H. apply Exists_exists in H as [m [Hin Hm]].
    rewrite Forall_forall in E. specialize (E m Hin). congruence.
Qed.

Lemma normalize_normalized (domain : gostring) : normalized (normalize domain).
Proof. apply normalized_norm. Qed.

End EngineFacts.

(** ** The decision: normalization, then the first match in list order *)

Section Decision.
Import strings blocker spec.


End Decision.

(** ** Decisions under a one-entry blacklist *)

Section DecideFacts.
Import strings blocker spec.

Lemma Decide_single (p d : gostring) :
  nonblank p = true -> Decide [p] d = Match (CreateMatcher p) (normalize d).
Proof.
  intros Hp. unfold Decide. set (b := fst (UpdateBlacklist New [p])).
  assert (Hm : matchers b = [CreateMatcher p]).
  { unfold b. rewrite matchers_UpdateBlacklist. unfold compile. simpl. now rewrite Hp. }
  unfold IsBlocked. fold (normalize d). rewrite Hm. simpl.
  now destruct (Match (CreateMatcher p) (normalize d)).
Qed.

Lemma nonblank_head (a x : gostring) : a <> [] -> trimmed a -> nonblank (a ++ x) = true.
Proof.
  intros Ha Ht. unfold nonblank. rewrite TrimSpace_head by assumption.
  apply negb_true_iff, eqb_neq. now destruct a.
Qed.

Lemma nonblank_tail (x b : gostring) :
  b <> [] -> trimmed b -> no_leading_space x -> nonblank (x ++ b) = true.
Proof.
  intros Hb Ht Hx. unfold nonblank. rewrite TrimSpace_tail by assumption.
  apply negb_true_iff, eqb_neq. now destruct x, b.
Qed.

Lemma trimmed_wrap (a x b : gostring) :
  a <> [] -> b <> [] -> trimmed a -> trimmed b -> trimmed (a ++ x ++ b).
Proof.
  intros Ha Hb Hta Htb.
  apply trimmed_iff in Hta as [Hfa _]. apply trimmed_iff in Htb as [_ Hlb].
  apply trimmed_iff. split.
  - now apply no_leading_space_app_l.
  - unfold no_trailing_space in *. rewrite !rev_app_distr, <- app_assoc.
    apply no_leading_space_app_l; [|exact Hlb].
    intros E. apply (f_equal (@rev ascii)) in E. rewrite rev_involutive in E.
    contradiction.
Qed.

Lemma TrimRight_no_leading_space_TrimSpace (x : gostring) : no_leading_space x -> TrimSpace x = TrimRight x.
Proof. intros H. unfold TrimSpace. now rewrite TrimLeft_id. Qed.

Lemma dots_TrimRight (x : gostring) : dots (TrimRight x) = dots x.
Proof. unfold TrimRight. now rewrite dots_rev, dots_TrimLeft, dots_rev. Qed.

Lemma nocolon_TrimRight (x : gostring) : nocolon x -> nocolon (TrimRight x).
Proof.
  intros H. destruct (TrimRight_prefix x) as [sp E]. rewrite E in H.
  now apply nocolon_app in H.
Qed.

(** The normal form of a candidate without colon. *)
Lemma normalize_nocolon (d : gostring) :
  nocolon d -> normalize d = ToLower (TrimSpace d).
Proof. intros H. unfold normalize. now rewrite stripPort_nocolon. Qed.

Lemma normalize_head (a x : gostring) :
  a <> [] -> trimmed a -> nocolon a -> nocolon x ->
  normalize (a ++ x) = ToLower a ++ ToLower (TrimRight x).
Proof.
  intros Ha Ht Hca Hcx. rewrite normalize_nocolon by now apply nocolon_app.
  now rewrite TrimSpace_head, ToLower_app.
Qed.

Lemma normalize_tail (x b : gostring) :
  b <> [] -> trimmed b -> nocolon b -> no_leading_space x -> nocolon x ->
  normalize (x ++ b) = ToLower x ++ ToLower b.
Proof.
  intros Hb Ht Hcb Hx Hcx. rewrite normalize_nocolon by now apply nocolon_app.
  now rewrite TrimSpace_tail, ToLower_app.
Qed.

Lemma normalize_wrap (a x b : gostring) :
  a <> [] -> b <> [] -> trimmed a -> trimmed b ->
  nocolon a -> nocolon b -> nocolon x ->
  normalize (a ++ x ++ b) = ToLower a ++ ToLower x ++ ToLower b.
Proof.
  intros Ha Hb Hta Htb Hca Hcb Hcx.
  rewrite normalize_nocolon by (rewrite !nocolon_app; auto).
  now rewrite trimmed_wrap, !ToLower_app.
Qed.

(** The matcher of a pattern, by its kind. *)
Lemma CreateMatcher_by_kind (p : gostring) :
  let q := ToLower (TrimSpace p) in
  match kind (CreateMatcher p) with
  | Exact => CreateMatcher p = ExactMatcher q
  | PrefixWildcard =>
      CreateMatcher p = PrefixWildcardMatcher q (slice q 1 (len q))
      /\ starts_with q "*." /\ ~ ends_with q ".*"
  | SuffixWildcard =>
      CreateMatcher p = SuffixWildcardMatcher q (slice q 0 (len q - 1))
      /\ ~ starts_with q "*." /\ ends_with q ".*"
  | DoubleWildcard =>
      CreateMatcher p = DoubleWildcardMatcher q (slice q 1 (len q - 1))
      /\ starts_with q "*." /\ ends_with q ".*"
  end.
Proof.
  rewrite CreateMatcher_eq. cbv zeta.
  destruct (HasPrefix (ToLower (TrimSpace p)) "*.") eqn:E1,
           (HasSuffix (ToLower (TrimSpace p)) ".*") eqn:E2; simpl.
  - apply HasPrefix_spec in E1. apply HasSuffix_spec in E2. auto.
  - apply HasPrefix_spec in E1. apply HasSuffix_false in E2. auto.
  - apply HasPrefix_false in E1. apply HasSuffix_spec in E2. auto.
  - reflexivity.
Qed.

Lemma CreateMatcher_exact (p : gostring) :
  kind (CreateMatcher p) = Exact ->
  CreateMatcher p = ExactMatcher (ToLower (TrimSpace p)).
Proof. intros H. pose proof (CreateMatcher_by_kind p) as K. now rewrite H in K. Qed.

Lemma CreateMatcher_prefix (p x : gostring) :
  kind (CreateMatcher p) = PrefixWildcard -> ToLower (TrimSpace p) = "*." +++ x ->
  CreateMatcher p = PrefixWildcardMatcher ("*." +++ x) ("." +++ x).
Proof.
  intros H E. pose proof (CreateMatcher_by_kind p) as K. rewrite H in K.
  cbv zeta in K. destruct K as [K _]. rewrite K, E. f_equal.
  apply (slice_tail "*"%char ("." +++ x)).
Qed.

Lemma CreateMatcher_suffix (p x : gostring) :
  kind (CreateMatcher p) = SuffixWildcard -> ToLower (TrimSpace p) = x +++ ".*" ->
  CreateMatcher p = SuffixWildcardMatcher (x +++ ".*") (x +++ ".").
Proof.
  intros H E. pose proof (CreateMatcher_by_kind p) as K. rewrite H in K.
  cbv zeta in K. destruct K as [K _]. rewrite K, E. f_equal.
  change (x +++ ".*") with (x ++ [".";"*"]%char).
  replace (x ++ [".";"*"]%char) with ((x +++ ".") ++ ["*"%char])
    by (rewrite <- app_assoc; reflexivity).
  apply slice_init.
Qed.

Lemma CreateMatcher_double (p x : gostring) :
  ToLower (TrimSpace p) = "*." +++ x +++ ".*" ->
  CreateMatcher p = DoubleWildcardMatcher ("*." +++ x +++ ".*") ("." +++ x +++ ".").
Proof.
  intros E. rewrite CreateMatcher_eq. cbv zeta. rewrite E.
  replace (HasPrefix ("*." +++ x +++ ".*") "*.") with true
    by (symmetry; apply HasPrefix_spec; now exists (x +++ ".*")).
  replace (HasSuffix ("*." +++ x +++ ".*") ".*") with true
    by (symmetry; apply HasSuffix_spec; exists ("*." +++ x); now rewrite <- app_assoc).
  simpl andb. cbv iota. f_equal.
  pose proof (slice_middle ["*"%char] ("." +++ x +++ ".") ["*"%char]) as S.
  change (len ["*"%char]) with 1 in S.
  replace (["*"%char] ++ ("." +++ x +++ ".") ++ ["*"%char]) with ("*." +++ x +++ ".*") in S.
  - exact S.
  - simpl. rewrite <- app_assoc. reflexivity.
Qed.

End DecideFacts.

(** ** The four kinds of pattern *)

Section Kinds.
Import strings blocker spec.

Lemma nonblank_no_leading_space (x : gostring) : x <> [] -> no_leading_space x -> nonblank x = true.
Proof.
  destruct x as [|c r]; [congruence|]. intros _ Hc.
  apply (nonblank_head [c] r); [discriminate|].
  apply trimmed_iff. split; exact Hc.
Qed.

(** Each [Match] on a candidate as [IsBlocked] hands it over. *)
Lemma Match_Exact_normalized (x d : gostring) :
  normalized d ->
  Match (ExactMatcher x) d = true <-> d = x \/ ends_with d ("." +++ x).
Proof.
  intros Hd. pose proof (Match_Exact x d) as M. cbv zeta in M.
  unfold normalized in Hd. now rewrite Hd in M.
Qed.

Lemma Match_Prefix_normalized (q x d : gostring) :
  normalized d ->
  Match (PrefixWildcardMatcher q ("." +++ x)) d = true <->
  ends_with d ("." +++ x) /\ d <> x.
Proof.
  intros Hd. pose proof (Match_Prefix q x d) as M. cbv zeta in M.
  unfold normalized in Hd. now rewrite Hd in M.
Qed.

Lemma Match_Suffix_normalized (q x d : gostring) :
  normalized d ->
  Match (SuffixWildcardMatcher q (x +++ ".")) d = true <->
  (exists r, r <> [] /\ d = x +++ "." +++ r) \/ has_substring d ("." +++ x +++ ".").
Proof.
  intros Hd. pose proof (Match_Suffix q x d) as M. cbv zeta in M.
  unfold normalized in Hd. now rewrite Hd in M.
Qed.

Lemma Match_Double_normalized (q x d : gostring) :
  normalized d ->
  Match (DoubleWildcardMatcher q ("." +++ x +++ ".")) d = true <->
  has_substring d ("." +++ x +++ ".").
Proof.
  intros Hd. pose proof (Match_Double q x d) as M.
  unfold normalized in Hd. now rewrite Hd in M.
Qed.

(** A string that ends with [".other"] ends with ["." + l] only if [l]
    itself ends with ["other"]. *)
Lemma other_overlap (t l : gostring) :
  ends_with (t +++ ".other") ("." +++ l) -> ends_with l "other".
Proof.
  intros [u E]. apply (f_equal (@rev ascii)) in E.
  rewrite !rev_app_distr in E. simpl in E.
  remember (rev l) as r eqn:Hr.
  assert (Hl : l = rev r) by (rewrite Hr; symmetry; apply rev_involutive).
  destruct r as [|a [|b [|c [|d [|e r]]]]]; simpl in E; try discriminate E.
  injection E as <- <- <- <- <- _.
  exists (rev r). rewrite Hl. simpl. now rewrite <- !app_assoc.
Qed.



(** ["not" + l + ".com"] does not start with [l + "."]. *)
Lemma not_com_overlap (l r : gostring) :
  "not" +++ l +++ ".com" <> l +++ "." +++ r.
Proof.
  intros E. rewrite !app_assoc in E.
  apply app_eq_app in E as [w [[E _] | [E _]]].
  - apply (f_equal dots) in E. rewrite !dots_app in E. lit_dots E. lia.
  - apply (f_equal (@length ascii)) in E. rewrite !length_app in E. simpl in E. lia.
Qed.



End Kinds.

(** ** The last colon *)

Section LastColon.
Import strings blocker spec.

Lemma IsBlocked_by_normalize (b : Blocker) (d1 d2 : gostring) :
  normalize d1 = normalize d2 -> IsBlocked b d1 = IsBlocked b d2.
Proof.
  intros E. unfold IsBlocked. fold (normalize d1). fold (normalize d2). now rewrite E.
Qed.

(** C10.  A domain with a colon is cut at its last colon: it splits, in one
    way only, as [h + ":" + t] with no colon in [t], whatever [t] is; only
    [h], trimmed and lower-cased, is tested, so that the decision is that of
    every other domain with the same [h] in front of its last colon. *)
Theorem IsBlocked_cuts_at_last_colon (b : Blocker) (domain : gostring) :
  In ":"%char domain ->
  exists h t : gostring,
    domain = h ++ ":" +++ t /\ nocolon t /\
    (forall h' t' : gostring,
        domain = h' ++ ":" +++ t' -> nocolon t' -> h' = h /\ t' = t) /\
    stripPort domain = h /\
    normalize domain = ToLower (TrimSpace h) /\
    (result (IsBlocked b domain) = true <->
     Exists (fun m => Match m (ToLower (TrimSpace h)) = true) (matchers b)) /\
    (forall t' : gostring, nocolon t' -> IsBlocked b (h ++ ":" +++ t') = IsBlocked b domain).
Proof.
  intros Hin. destruct (last_colon_split domain Hin) as [h [t [-> Ht]]].
  exists h, t.
  assert (Hn : normalize (h ++ ":" +++ t) = ToLower (TrimSpace h))
    by (unfold normalize; now rewrite stripPort_last).
  split; [reflexivity|]. split; [assumption|]. split.
  { intros h' t' E Ht'. symmetry in E. now apply last_colon_unique in E. }
  repeat split; auto.
  - now apply stripPort_last.
  - intros H. apply IsBlocked_result in H. now rewrite Hn in H.
  - intros H. apply IsBlocked_result. now rewrite Hn.
  - intros t' Ht'. apply IsBlocked_by_normalize.
    unfold normalize. now rewrite !stripPort_last.
Qed.

End LastColon.

(** ** The counters *)

Section Counters.
Import strings blocker spec.

Lemma wrap64_id (z : Z) : int64 z -> wrap64 z = z.
Proof.
  unfold int64, wrap64, MinInt64, MaxInt64. intros H.
  rewrite Z.mod_small; lia.
Qed.

Lemma wrap64_succ (z : Z) : wrap64 (wrap64 z + 1) = wrap64 (z + 1).
Proof.
  unfold wrap64.
  replace ((z - MinInt64) mod 2 ^ 64 + MinInt64 + 1 - MinInt64)
    with ((z - MinInt64) mod 2 ^ 64 + 1) by lia.
  rewrite Zplus_mod_idemp_l. f_equal. f_equal. lia.
Qed.

Lemma outcomes_nonneg (r : bool) (rs : list bool) : 0 <= outcomes r rs.
Proof. unfold outcomes. lia. Qed.

Lemma outcomes_cons (r x : bool) (rs : list bool) :
  outcomes r (x :: rs) = (if Bool.eqb r x then 1 else 0) + outcomes r rs.
Proof.
  unfold outcomes. simpl filter. destruct (Bool.eqb r x); simpl length; lia.
Qed.

Lemma calls_cons (b : Blocker) (d : gostring) (rest : list gostring) :
  calls b (d :: rest) =
  (fst (calls (engine (IsBlocked b d)) rest),
   result (IsBlocked b d) :: snd (calls (engine (IsBlocked b d)) rest)).
Proof. simpl. now destruct (calls (engine (IsBlocked b d)) rest). Qed.

(** One call touches one counter, the one of its result. *)
Lemma IsBlocked_counters (b : Blocker) (d : gostring) :
  let res := IsBlocked b d in
  (result res = true /\
   blockedCount (engine res) = wrap64 (blockedCount b + 1) /\
   allowedCount (engine res) = allowedCount b) \/
  (result res = false /\
   allowedCount (engine res) = wrap64 (allowedCount b + 1) /\
   blockedCount (engine res) = blockedCount b).
Proof.
  cbv zeta. unfold IsBlocked.
  destruct (IsBlocked_loop _ _); [left | right]; repeat split.
Qed.

Lemma calls_counters (ds : list gostring) (b : Blocker) :
  int64 (blockedCount b) -> int64 (allowedCount b) ->
  blockedCount b + outcomes true (snd (calls b ds)) <= MaxInt64 ->
  allowedCount b + outcomes false (snd (calls b ds)) <= MaxInt64 ->
  Stats (fst (calls b ds)) =
    (blockedCount b + outcomes true (snd (calls b ds)),
     allowedCount b + outcomes false (snd (calls b ds))).
Proof.
  revert b. induction ds as [|d rest IH]; intros b Hb Ha.
  - simpl. unfold Stats, outcomes. simpl. intros _ _. f_equal; lia.
  - rewrite calls_cons. simpl fst. simpl snd. rewrite !outcomes_cons.
    set (res := IsBlocked b d).
    pose proof (outcomes_nonneg true (snd (calls (engine res) rest))) as Ht.
    pose proof (outcomes_nonneg false (snd (calls (engine res) rest))) as Hf.
    unfold int64 in Hb, Ha.
    destruct (IsBlocked_counters b d) as [[Hr [Hbc Hac]] | [Hr [Hac Hbc]]];
      fold res in Hr, Hbc, Hac; rewrite Hr; simpl Bool.eqb; cbv iota; intros Hmb Hma.
    + rewrite wrap64_id in Hbc by (unfold int64; lia).
      rewrite IH; rewrite ?Hbc, ?Hac; unfold int64; try lia. f_equal; lia.
    + rewrite wrap64_id in Hac by (unfold int64; lia).
      rewrite IH; rewrite ?Hbc, ?Hac; unfold int64; try lia. f_equal; lia.
Qed.

(** C6 (as amended).  Every call of [IsBlocked] adds one, in [int64]
    arithmetic, to exactly one counter: the blocked one if the result is
    Blocked, the allowed one if it is Allowed; the other counter stays.
    From any engine, as long as neither counter would pass [MaxInt64],
    [Stats] after a sequence of calls is the counters before plus the numbers
    of Blocked and of Allowed results of the sequence, so no counter has
    decreased; on a fresh engine these are the numbers of results themselves.
    [UpdateBlacklist] and [SetLogging] leave the counters as they are. *)
Theorem counters_count_results :
  (forall (b : Blocker) (d : gostring),
      let res := IsBlocked b d in
      (result res = true /\
       blockedCount (engine res) = wrap64 (blockedCount b + 1) /\
       allowedCount (engine res) = allowedCount b) \/
      (result res = false /\
       allowedCount (engine res) = wrap64 (allowedCount b + 1) /\
       blockedCount (engine res) = blockedCount b)) /\
  (forall (b : Blocker) (ds : list gostring),
      let b' := fst (calls b ds) in
      let rs := snd (calls b ds) in
      int64 (blockedCount b) -> int64 (allowedCount b) ->
      blockedCount b + outcomes true rs <= MaxInt64 ->
      allowedCount b + outcomes false rs <= MaxInt64 ->
      Stats b' = (blockedCount b + outcomes true rs,
                  allowedCount b + outcomes false rs) /\
      blockedCount b <= blockedCount b' /\ allowedCount b <= allowedCount b') /\
  (forall (patterns ds : list gostring),
      let b := fst (UpdateBlacklist New patterns) in
      let rs := snd (calls b ds) in
      Z.of_nat (length ds) <= MaxInt64 ->
      Stats (fst (calls b ds)) = (outcomes true rs, outcomes false rs)) /\
  (forall (b : Blocker) (patterns : list gostring) (x y : bool),
      Stats (fst (UpdateBlacklist b patterns)) = Stats b /\
      Stats (SetLogging b x y) = Stats b).
Proof.
  split; [exact IsBlocked_counters|]. split; [|split].
  - intros b ds b' rs Hb Ha Hmb Hma.
    pose proof (calls_counters ds b Hb Ha Hmb Hma) as E. fold b' rs in E.
    split; [exact E|]. unfold Stats in E. injection E as -> ->.
    pose proof (outcomes_nonneg true rs). pose proof (outcomes_nonneg false rs). lia.
  - intros patterns ds b rs Hlen.
    assert (Hsum : outcomes true rs + outcomes false rs = Z.of_nat (length ds)).
    { unfold rs. clear Hlen. generalize b. induction ds as [|d rest IH]; intros b0.
      - reflexivity.
      - rewrite calls_cons. simpl snd. rewrite !outcomes_cons.
        specialize (IH (engine (IsBlocked b0 d))). simpl length.
        destruct (result (IsBlocked b0 d)); simpl Bool.eqb; lia. }
    pose proof (outcomes_nonneg true rs). pose proof (outcomes_nonneg false rs).
    rewrite (calls_counters ds b); fold rs; simpl blockedCount; simpl allowedCount;
      unfold int64, MinInt64, MaxInt64 in *; try lia.
    reflexivity.
  - intros b patterns x y. split; reflexivity.
Qed.

End Counters.

(** ** The patterns of the rule set *)

Section Patterns.
Import strings blocker spec.


End Patterns.

(** ** The CONNECT path *)

Section Connect.
Import strings blocker proxy spec.

(** C7.  When [IsBlocked] blocks the host of a CONNECT request, the handler
    answers 403 Forbidden and does nothing else: no action dials.  When it
    allows the host, the first action dials the host as the request gives
    it, port included, while the decision was made on what precedes the
    last colon of the host. *)
Theorem handleConnect_blocked_never_dials
    (handleHTTP : World -> Blocker -> Request -> Blocker * list LogRecord * list Action)
    (env : World) (b : Blocker) (r : Request) :
  Method r = "CONNECT" ->
  ServeHTTP handleHTTP env b r = handleConnect env b r /\
  (result (IsBlocked b (Host r)) = true ->
   actions (handleConnect env b r) = [HttpError "Blocked" StatusForbidden] /\
   existsb isDial (actions (handleConnect env b r)) = false) /\
  (result (IsBlocked b (Host r)) = false ->
   hd_error (actions (handleConnect env b r)) = Some (DialTimeout "tcp" (Host r) 30)) /\
  (forall h port : gostring, Host r = h ++ ":" +++ port -> nocolon port ->
     (result (IsBlocked b (Host r)) = true <->
      Exists (fun m => Match m (ToLower (TrimSpace h)) = true) (matchers b))).
Proof.
  intros Hm. split; [unfold ServeHTTP; now rewrite Hm|].
  unfold actions, handleConnect, result.
  destruct (IsBlocked b (Host r)) as [[blocked b'] logged] eqn:E. simpl fst.
  split; [|split].
  - intros ->. split; reflexivity.
  - intros ->. destruct (dialError env (Host r)); [reflexivity|].
    destruct (isHijacker env); simpl negb; cbv iota; [|reflexivity].
    destruct (hijackError env); reflexivity.
  - intros h port Hh Hp.
    replace blocked with (result (IsBlocked b (Host r))) by (rewrite E; reflexivity).
    rewrite IsBlocked_result. unfold normalize. rewrite Hh, stripPort_last by assumption.
    reflexivity.
Qed.

End Connect.

(** * The properties at concrete inputs *)

Section Instances.
Import strings blocker proxy spec.










Lemma IsBlocked_cuts_at_last_colon_witness :
  exists h t : gostring,
    ("2001:db8::1" : gostring) = h ++ ":" +++ t /\ nocolon t /\
    (forall h' t' : gostring,
        ("2001:db8::1" : gostring) = h' ++ ":" +++ t' -> nocolon t' ->
        h' = h /\ t' = t) /\
    stripPort "2001:db8::1" = h /\
    normalize "2001:db8::1" = ToLower (TrimSpace h) /\
    (result (IsBlocked sample_engine "2001:db8::1") = true <->
     Exists (fun m => Match m (ToLower (TrimSpace h)) = true) (matchers sample_engine)) /\
    (forall t' : gostring, nocolon t' -> IsBlocked sample_engine (h ++ ":" +++ t') =
                              IsBlocked sample_engine "2001:db8::1").
Proof.
  apply (IsBlocked_cuts_at_last_colon sample_engine "2001:db8::1").
  simpl. tauto.
Defined.

(** The cut of a bare IPv6 literal, and of a host with a port. *)
Example stripPort_examples :
  stripPort "2001:db8::1" = "2001:db8:" /\
  stripPort "example.com:443" = "example.com" /\
  stripPort "example.com:" = "example.com" /\
  stripPort "example.com" = "example.com".
Proof. repeat split; vm_compute; reflexivity. Qed.

Lemma counters_count_results_witness :
  let b := fst (UpdateBlacklist New ["x" : gostring]) in
  let ds := ["x" : gostring; "y" : gostring; "sub.x" : gostring] in
  snd (calls b ds) = [true; false; true] /\
  Stats (fst (calls b ds)) = (2, 1) /\
  Stats (fst (calls (fst (calls b ds)) ds)) = (4, 2).
Proof.
  intros b ds. destruct counters_count_results as [_ [G [F _]]].
  split; [vm_compute; reflexivity|]. split.
  - unfold b. rewrite (F ["x" : gostring] ds); [vm_compute; reflexivity|].
    vm_compute. discriminate.
  - destruct (G (fst (calls b ds)) ds) as [E _].
    + vm_compute. split; discriminate.
    + vm_compute. split; discriminate.
    + vm_compute. discriminate.
    + vm_compute. discriminate.
    + rewrite E. vm_compute. reflexivity.
Defined.

(** On an engine whose only matcher is that of ["x"], the domain ["x"] is
    blocked and recorded. *)
Lemma IsBlocked_x (b : Blocker) :
  matchers b = [ExactMatcher "x"] ->
  result (IsBlocked b "x") = true /\ engine (IsBlocked b "x") = recordBlocked b.
Proof.
  intros H. unfold result, engine, IsBlocked. rewrite H.
  replace (IsBlocked_loop [ExactMatcher "x"] (ToLower (TrimSpace (stripPort "x"))))
    with (Some (ExactMatcher "x")) by (vm_compute; reflexivity).
  split; reflexivity.
Qed.

Lemma repeat_call_x (n : N) :
  repeat_call n (fst (UpdateBlacklist New ["x" : gostring])) "x" =
  mkBlocker [ExactMatcher "x"] true false (wrap64 (Z.of_N n)) 0.
Proof.
  unfold repeat_call. induction n as [|n IH] using N.peano_ind.
  - vm_compute. reflexivity.
  - rewrite N.iter_succ, IH.
    destruct (IsBlocked_x (mkBlocker [ExactMatcher "x"] true false (wrap64 (Z.of_N n)) 0))
      as [_ ->]; [reflexivity|].
    unfold recordBlocked. simpl. f_equal.
    rewrite wrap64_succ. f_equal. lia.
Qed.

(** C6 as stated fails where [int64] ends.  After 2^63 - 1 calls that were
    all blocked the blocked counter is [MaxInt64]; the next call is blocked
    too, and leaves [MinInt64] in the counter: it has decreased, and it is
    not the number of blocked results. *)
Lemma counters_wrap_counterexample :
  let b := repeat_call (2 ^ 63 - 1) (fst (UpdateBlacklist New ["x" : gostring])) "x" in
  Stats b = (MaxInt64, 0) /\
  result (IsBlocked b "x") = true /\
  Stats (engine (IsBlocked b "x")) = (MinInt64, 0).
Proof.
  intros b. unfold b. rewrite repeat_call_x.
  repeat split; vm_compute; reflexivity.
Qed.



Lemma handleConnect_blocked_never_dials_witness :
  let env := mkWorld (fun _ => None) true None in
  let other := fun (_ : World) (b : Blocker) (_ : Request) =>
                 (b, @nil LogRecord, @nil Action) in
  actions (ServeHTTP other env sample_engine (mkRequest "CONNECT" "www.google.de:443")) =
    [HttpError "Blocked" StatusForbidden] /\
  hd_error (actions (ServeHTTP other env sample_engine (mkRequest "CONNECT" "example.com:443"))) =
    Some (DialTimeout "tcp" "example.com:443" 30) /\
  (result (IsBlocked sample_engine "www.google.de:443") = true <->
   Exists (fun m => Match m (ToLower (TrimSpace "www.google.de")) = true) (matchers sample_engine)).
Proof.
  intros env other.
  destruct (handleConnect_blocked_never_dials other env sample_engine
              (mkRequest "CONNECT" "www.google.de:443") eq_refl) as [E1 [B [_ S]]].
  destruct (handleConnect_blocked_never_dials other env sample_engine
              (mkRequest "CONNECT" "example.com:443") eq_refl) as [E2 [_ [A _]]].
  split; [|split].
  - rewrite E1. apply B. vm_compute. reflexivity.
  - rewrite E2. apply A. vm_compute. reflexivity.
  - apply (S "www.google.de" "443"); [reflexivity | lit_nocolon].
Defined.

End Instances.

(** * Further properties *)

(** ** Matchers: what the text of a pattern and of a candidate may vary in *)

Section MatcherInsensitivity.
Import strings blocker spec.

Lemma Match_by_normal_form (m : Matcher) (d d' : gostring) :
  ToLower (TrimSpace d) = ToLower (TrimSpace d') -> Match m d = Match m d'.
Proof. intros E. unfold Match. now rewrite E. Qed.

Lemma normal_form_ToLower (d : gostring) :
  ToLower (TrimSpace (ToLower d)) = ToLower (TrimSpace d).
Proof. now rewrite TrimSpace_ToLower, ToLower_idem. Qed.

Lemma normal_form_TrimSpace (d : gostring) :
  ToLower (TrimSpace (TrimSpace d)) = ToLower (TrimSpace d).
Proof. now rewrite TrimSpace_idem. Qed.


Lemma CreateMatcher_by_normal_form (p p' : gostring) :
  ToLower (TrimSpace p) = ToLower (TrimSpace p') -> CreateMatcher p = CreateMatcher p'.
Proof. intros E. rewrite !CreateMatcher_eq. cbv zeta. now rewrite E. Qed.


(** A text with ["*."] in front and [".*"] behind is ['*'], a middle that
    is not empty, and ['*']; the middle is what [NewDoubleWildcardMatcher]
    cuts out, and it begins and ends with ['.']. *)
Lemma double_wildcard_middle (q : gostring) :
  starts_with q "*." -> ends_with q ".*" ->
  exists m, q = "*" +++ m +++ "*" /\ m <> [] /\
            starts_with m "." /\ ends_with m "." /\
            slice q 1 (len q - 1) = m.
Proof.
  intros [v Hv] [u Hu]. destruct u as [|c u].
  - rewrite Hu in Hv. discriminate Hv.
  - assert (Hc : c = "*"%char) by (rewrite Hu in Hv; now injection Hv).
    subst c. exists (u +++ "."). repeat split.
    + rewrite Hu. simpl. now rewrite <- app_assoc.
    + now destruct u.
    + destruct u as [|c u]; [now exists []|].
      rewrite Hu in Hv. injection Hv as -> _. now exists (u +++ ".").
    + now exists u.
    + pose proof (slice_middle ["*"%char] (u +++ ".") ["*"%char]) as S.
      change (len ["*"%char]) with 1 in S.
      replace (["*"%char] ++ (u +++ ".") ++ ["*"%char]) with q in S; [exact S|].
      rewrite Hu. simpl. now rewrite <- app_assoc.
Qed.

Lemma norm_fixed (p : gostring) :
  ToLower (TrimSpace (ToLower (TrimSpace p))) = ToLower (TrimSpace p).
Proof. apply normalized_norm. Qed.

(** Each wildcard matcher with the field of its constructor matches the
    text of its own pattern. *)
Lemma Prefix_matches_own_text (q : gostring) :
  normalized q -> starts_with q "*." ->
  Match (PrefixWildcardMatcher q (slice q 1 (len q))) q = true.
Proof.
  intros Hn [v ->]. change ("*." +++ v) with ("*"%char :: "." +++ v).
  rewrite slice_tail. apply Match_Prefix_normalized; [exact Hn|]. split.
  - now exists (str "*").
  - intros E. apply (f_equal (@length ascii)) in E. simpl in E. lia.
Qed.

Lemma Suffix_matches_own_text (q : gostring) :
  normalized q -> ends_with q ".*" ->
  Match (SuffixWildcardMatcher q (slice q 0 (len q - 1))) q = true.
Proof.
  intros Hn [u Hu].
  assert (Hq : q = (u +++ ".") ++ ["*"%char]) by (rewrite Hu, <- app_assoc; reflexivity).
  rewrite Hq at 2 3. rewrite slice_init.
  apply Match_Suffix_normalized; [exact Hn|]. left. exists (str "*").
  split; [discriminate | exact Hu].
Qed.

Lemma Double_matches_own_text (q : gostring) :
  normalized q -> starts_with q "*." -> ends_with q ".*" ->
  Match (DoubleWildcardMatcher q (slice q 1 (len q - 1))) q = true.
Proof.
  intros Hn Hs He.
  destruct (double_wildcard_middle q Hs He) as [m [Hq [Hne [_ [_ ->]]]]].
  unfold Match. unfold normalized in Hn. rewrite Hn.
  replace (eqb m []) with false by (symmetry; now apply eqb_neq).
  apply Contains_spec. now exists (str "*"), (str "*").
Qed.


Lemma Match_CreateMatcher_normal_form (p : gostring) :
  Match (CreateMatcher p) (ToLower (TrimSpace p)) = true.
Proof.
  assert (Hn : normalized (ToLower (TrimSpace p))) by apply normalized_norm.
  pose proof (CreateMatcher_by_kind p) as K. cbv zeta in K.
  destruct (kind (CreateMatcher p)).
  - rewrite K. apply Match_Exact_normalized; [exact Hn | now left].
  - destruct K as [-> [Hs _]]. now apply Prefix_matches_own_text.
  - destruct K as [-> [_ He]]. now apply Suffix_matches_own_text.
  - destruct K as [-> [Hs He]]. now apply Double_matches_own_text.
Qed.


End MatcherInsensitivity.

(** ** Matchers: rules that other rules cover *)

Section Subsumption.
Import strings blocker spec.


End Subsumption.

(** ** The rule engine: decisions as a function of the blacklist *)

Section Blacklists.
Import strings blocker spec.

Lemma IsBlocked_result_existsb (b : Blocker) (d : gostring) :
  result (IsBlocked b d) = existsb (fun m => Match m (normalize d)) (matchers b).
Proof.
  unfold result, IsBlocked. fold (normalize d).
  induction (matchers b) as [|m ms IH]; simpl; [reflexivity|].
  destruct (Match m (normalize d)); simpl; [reflexivity|].
  destruct (IsBlocked_loop ms (normalize d)); exact IH.
Qed.

Lemma Decide_existsb (ps : list gostring) (d : gostring) :
  Decide ps d = existsb (fun m => Match m (normalize d)) (compile ps).
Proof.
  unfold Decide. fold (result (IsBlocked (fst (UpdateBlacklist New ps)) d)).
  now rewrite IsBlocked_result_existsb, matchers_UpdateBlacklist.
Qed.

Lemma compile_app (ps qs : list gostring) : compile (ps ++ qs) = compile ps ++ compile qs.
Proof. unfold compile. now rewrite filter_app, map_app. Qed.

Lemma Decide_true_iff (ps : list gostring) (d : gostring) :
  Decide ps d = true <->
  exists p, In p ps /\ nonblank p = true /\ Match (CreateMatcher p) (normalize d) = true.
Proof.
  rewrite Decide_existsb, existsb_exists. unfold compile. split.
  - intros [m [Hin Hm]]. apply in_map_iff in Hin as [p [<- Hp]].
    apply filter_In in Hp as [Hp Hnb]. now exists p.
  - intros [p [Hin [Hnb Hm]]]. exists (CreateMatcher p). split; [|exact Hm].
    apply in_map. now apply filter_In.
Qed.



Lemma nonblank_normal_form (p : gostring) :
  nonblank (ToLower (TrimSpace p)) = nonblank p.
Proof.
  unfold nonblank. rewrite TrimSpace_ToLower, TrimSpace_idem.
  now destruct (TrimSpace p).
Qed.

Lemma compile_normal_forms (ps : list gostring) :
  compile (map (fun p => ToLower (TrimSpace p)) (filter nonblank ps)) = compile ps.
Proof.
  unfold compile. induction ps as [|p ps IH]; [reflexivity|]. simpl filter.
  destruct (nonblank p) eqn:E; [|exact IH].
  simpl map. simpl filter. rewrite nonblank_normal_form, E. simpl map.
  f_equal; [|exact IH].
  apply CreateMatcher_by_normal_form, norm_fixed.
Qed.

Lemma GetPatterns_of_compiled_rules (b : Blocker) (ps : list gostring) :
  GetPatterns (fst (UpdateBlacklist b ps)) =
    map (fun p => ToLower (TrimSpace p)) (filter nonblank ps) /\
  matchers (fst (UpdateBlacklist b ps)) = compile ps.
Proof.
  split; [|apply matchers_UpdateBlacklist].
  unfold GetPatterns. rewrite matchers_UpdateBlacklist. unfold compile.
  rewrite map_map. apply map_ext. apply Pattern_CreateMatcher.
Qed.


End Blacklists.

(** ** The rule engine: calls of IsBlocked *)

Section CallsOfIsBlocked.
Import strings blocker spec.

Lemma IsBlocked_keeps_rules (b : Blocker) (d : gostring) :
  matchers (engine (IsBlocked b d)) = matchers b /\
  logBlocked (engine (IsBlocked b d)) = logBlocked b /\
  logAllowed (engine (IsBlocked b d)) = logAllowed b.
Proof.
  unfold engine, IsBlocked. destruct (IsBlocked_loop _ _); repeat split.
Qed.

Lemma IsBlocked_result_by_rules (b1 b2 : Blocker) (d : gostring) :
  matchers b1 = matchers b2 -> result (IsBlocked b1 d) = result (IsBlocked b2 d).
Proof. intros E. now rewrite !IsBlocked_result_existsb, E. Qed.

(** X9.  Decisions carry no memory: in a sequence of calls, each result is
    the result that the same domain gets from the engine as it was before
    the sequence, whatever was asked before; the calls leave the rule set
    and the logging flags as they were. *)
Theorem decisions_are_stateless (b : Blocker) (ds : list gostring) :
  snd (calls b ds) = map (fun d => result (IsBlocked b d)) ds /\
  matchers (fst (calls b ds)) = matchers b /\
  logBlocked (fst (calls b ds)) = logBlocked b /\
  logAllowed (fst (calls b ds)) = logAllowed b /\
  GetPatterns (fst (calls b ds)) = GetPatterns b.
Proof.
  assert (H : forall ds b,
             snd (calls b ds) = map (fun d => result (IsBlocked b d)) ds /\
             matchers (fst (calls b ds)) = matchers b /\
             logBlocked (fst (calls b ds)) = logBlocked b /\
             logAllowed (fst (calls b ds)) = logAllowed b).
  { clear. induction ds as [|d rest IH]; intros b; [repeat split|].
    rewrite calls_cons. simpl fst. simpl snd.
    destruct (IH (engine (IsBlocked b d))) as [Hr [Hm [Hb Ha]]].
    destruct (IsBlocked_keeps_rules b d) as [Km [Kb Ka]].
    rewrite Hr, Hm, Hb, Ha, Km, Kb, Ka. repeat split.
    simpl map. f_equal. apply map_ext. intros d'.
    now apply IsBlocked_result_by_rules. }
  destruct (H ds b) as [Hr [Hm [Hb Ha]]]. repeat split; auto.
  unfold GetPatterns. now rewrite Hm.
Qed.

(** X10.  The logging flags decide what is logged and nothing else: with any
    flags the result and the counters of a call are the same; a call logs
    one record when the flag of its outcome is set and none when it is not,
    and the domain in the record is the normalized one, not the one that was
    passed. *)
Theorem SetLogging_only_changes_the_log (b : Blocker) (x y : bool) (d : gostring) :
  let res := IsBlocked (SetLogging b x y) d in
  result res = result (IsBlocked b d) /\
  Stats (engine res) = Stats (engine (IsBlocked b d)) /\
  matchers (engine res) = matchers b /\
  (if result res
   then (if x then exists pattern, In pattern (GetPatterns b) /\
                   snd res = [LogBlocked (normalize d) pattern]
         else snd res = [])
   else (if y then snd res = [LogAllowed (normalize d)] else snd res = [])).
Proof.
  cbv zeta. unfold result, engine, Stats, IsBlocked. fold (normalize d). simpl matchers.
  destruct (IsBlocked_loop (matchers b) (normalize d)) as [m|] eqn:E; simpl.
  - repeat split. destruct x; [|reflexivity].
    exists (Pattern m). split; [|reflexivity].
    apply IsBlocked_loop_Some in E as [before [after [Hm _]]].
    unfold GetPatterns. rewrite Hm. apply in_map. apply in_or_app. right. now left.
  - repeat split. now destruct y.
Qed.

Lemma stripPort_ToLower (d : gostring) : stripPort (ToLower d) = ToLower (stripPort d).
Proof.
  destruct (in_dec ascii_dec ":"%char d) as [Hin | Hno].
  - destruct (last_colon_split d Hin) as [h [t [-> Ht]]].
    rewrite stripPort_last by assumption.
    rewrite ToLower_app. change (ToLower (":" +++ t)) with (":" +++ ToLower t).
    apply stripPort_last. now apply nocolon_ToLower.
  - rewrite (stripPort_nocolon d) by exact Hno.
    apply stripPort_nocolon. now apply nocolon_ToLower.
Qed.

Lemma no_leading_space_colon (t : gostring) : no_leading_space (":" +++ t).
Proof. reflexivity. Qed.

Lemma TrimLeft_idem (s : gostring) : TrimLeft (TrimLeft s) = TrimLeft s.
Proof. apply TrimLeft_id, TrimLeft_no_leading_space. Qed.

Lemma TrimRight_head (a x : gostring) :
  a <> [] -> no_trailing_space a -> TrimRight (a ++ x) = a ++ TrimRight x.
Proof.
  intros Ha Hl. unfold TrimRight. rewrite rev_app_distr.
  destruct (TrimLeft (rev x)) as [|c r] eqn:E.
  - rewrite TrimLeft_nil_app by assumption.
    rewrite (TrimLeft_id (rev a)) by exact Hl. simpl. now rewrite rev_involutive, app_nil_r.
  - rewrite TrimLeft_cons_app by (rewrite E; discriminate).
    rewrite E, rev_app_distr, rev_involutive. reflexivity.
Qed.

Lemma TrimSpace_before_colon (h t : gostring) :
  TrimSpace (h ++ ":" +++ t) = TrimLeft h ++ ":" +++ TrimRight t.
Proof.
  unfold TrimSpace.
  assert (E : TrimLeft (h ++ ":" +++ t) = TrimLeft h ++ ":" +++ t).
  { destruct (TrimLeft h) as [|c r] eqn:Eh.
    - rewrite TrimLeft_nil_app by assumption. reflexivity.
    - rewrite TrimLeft_cons_app by (rewrite Eh; discriminate). now rewrite Eh. }
  rewrite E.
  replace (TrimLeft h ++ ":" +++ t) with ((TrimLeft h +++ ":") ++ t)
    by (now rewrite <- app_assoc).
  rewrite TrimRight_head.
  - now rewrite <- app_assoc.
  - now destruct (TrimLeft h).
  - unfold no_trailing_space. rewrite rev_app_distr. reflexivity.
Qed.

Lemma normalize_TrimSpace (d : gostring) : normalize (TrimSpace d) = normalize d.
Proof.
  unfold normalize.
  destruct (in_dec ascii_dec ":"%char d) as [Hin | Hno].
  - destruct (last_colon_split d Hin) as [h [t [-> Ht]]].
    rewrite TrimSpace_before_colon.
    rewrite !stripPort_last by (assumption || now apply nocolon_TrimRight).
    f_equal. unfold TrimSpace. now rewrite TrimLeft_idem.
  - assert (Hno' : nocolon (TrimSpace d)).
    { unfold TrimSpace. apply nocolon_TrimRight.
      destruct (TrimLeft_suffix d) as [sp E]. unfold nocolon in *.
      intros Hc. apply Hno. rewrite E. apply in_or_app. now right. }
    rewrite !stripPort_nocolon by assumption. now rewrite TrimSpace_idem.
Qed.


Lemma Match_CreateMatcher_empty (p : gostring) :
  nonblank p = true -> Match (CreateMatcher p) [] = false.
Proof.
  intros Hnb.
  assert (Hn : normalized []) by reflexivity.
  assert (Hq : ToLower (TrimSpace p) <> []).
  { unfold nonblank in Hnb. apply negb_true_iff, eqb_neq in Hnb.
    now destruct (TrimSpace p). }
  destruct (Match (CreateMatcher p) []) eqn:M; [exfalso|reflexivity].
  pose proof (CreateMatcher_by_kind p) as K. cbv zeta in K.
  destruct (kind (CreateMatcher p)).
  - rewrite K in M. apply Match_Exact_normalized in M; [|exact Hn].
    destruct M as [M | M]; [congruence|].
    apply ends_with_len in M. rewrite len_app in M.
    change (len []) with 0 in M. change (len ".") with 1 in M.
    pose proof (len_nonneg (ToLower (TrimSpace p))). lia.
  - destruct K as [K [[v Hv] _]]. rewrite K, Hv in M.
    change ("*." +++ v) with ("*"%char :: "." +++ v) in M. rewrite slice_tail in M.
    apply Match_Prefix_normalized in M; [|exact Hn]. destruct M as [M _].
    apply ends_with_len in M. rewrite len_app in M.
    change (len []) with 0 in M. change (len ".") with 1 in M.
    pose proof (len_nonneg v). lia.
  - destruct K as [K [_ [u Hu]]]. rewrite K in M.
    assert (E : ToLower (TrimSpace p) = (u +++ ".") ++ ["*"%char])
      by (rewrite Hu, <- app_assoc; reflexivity).
    rewrite E in M. rewrite slice_init in M.
    apply Match_Suffix_normalized in M; [|exact Hn].
    destruct M as [[r [_ M]] | M].
    + now destruct u.
    + apply has_substring_len in M. rewrite !len_app in M.
      change (len []) with 0 in M. change (len ".") with 1 in M.
      pose proof (len_nonneg u). lia.
  - destruct K as [K [Hs He]].
    destruct (double_wildcard_middle _ Hs He) as [m [_ [Hne [_ [_ Hm]]]]].
    rewrite K, Hm in M. unfold Match in M. simpl ToLower in M.
    replace (eqb m []) with false in M by (symmetry; now apply eqb_neq).
    apply Contains_spec, has_substring_len in M.
    change (len []) with 0 in M. destruct m; [congruence|].
    rewrite len_cons in M. pose proof (len_nonneg m). lia.
Qed.


End CallsOfIsBlocked.

(** ** The plain-HTTP path *)

Section PlainHTTP.
Import strings blocker handler spec terms.

Lemma hopHeaders_canonical : map http.CanonicalMIMEHeaderKey hopHeaders = hopHeaders.
Proof. vm_compute. reflexivity. Qed.

Lemma filter_all {A : Type} (l : list A) : filter (fun _ => true) l = l.
Proof. induction l as [|x l IH]; simpl; [reflexivity | now rewrite IH]. Qed.

Lemma filter_twice {A : Type} (f g : A -> bool) (l : list A) :
  filter g (filter f l) = filter (fun x => f x && g x) l.
Proof.
  induction l as [|x l IH]; simpl; [reflexivity|].
  destruct (f x); simpl; [destruct (g x)|]; now rewrite IH.
Qed.

Lemma removeHopHeaders_loop_filter (names : list gostring) (header : http.Header) :
  removeHopHeaders_loop names header =
  filter (fun kv => negb (existsb (eqb (fst kv)) (map http.CanonicalMIMEHeaderKey names)))
         header.
Proof.
  revert header. induction names as [|n names IH]; intros header; simpl.
  - symmetry. apply filter_all.
  - rewrite IH. unfold http.Del. rewrite filter_twice.
    apply filter_ext. intros kv. now rewrite negb_orb.
Qed.

Lemma removeHopHeaders_filter (header : http.Header) :
  removeHopHeaders header = filter (fun kv => negb (hop (fst kv))) header.
Proof.
  unfold removeHopHeaders. rewrite removeHopHeaders_loop_filter, hopHeaders_canonical.
  reflexivity.
Qed.

Lemma lookup_filter_key (f : gostring -> bool) (header : http.Header) (key : gostring) :
  http.lookup (filter (fun kv => f (fst kv)) header) key =
  if f key then http.lookup header key else None.
Proof.
  unfold http.lookup. induction header as [|[k vs] header IH]; simpl.
  - now destruct (f key).
  - destruct (eqb k key) eqn:E.
    + apply eqb_eq in E. subst k. destruct (f key) eqn:F; simpl.
      * now rewrite eqb_refl.
      * rewrite IH. reflexivity.
    + destruct (f k); simpl; [rewrite E|]; exact IH.
Qed.

(** X13.  [removeHopHeaders] deletes the entries of the eight names of
    [hopHeaders], compared byte for byte in their canonical spelling, and
    nothing else: the other entries stay, with their values, in their order.
    A second pass changes nothing. *)
Theorem removeHopHeaders_removes_exactly (header : http.Header) :
  removeHopHeaders header = filter (fun kv => negb (hop (fst kv))) header /\
  removeHopHeaders (removeHopHeaders header) = removeHopHeaders header /\
  (forall key values,
      In (key, values) (removeHopHeaders header) <->
      In (key, values) header /\ hop key = false) /\
  (forall key,
      http.lookup (removeHopHeaders header) key =
      if hop key then None else http.lookup header key).
Proof.
  split; [apply removeHopHeaders_filter|]. split; [|split].
  - rewrite !removeHopHeaders_filter, filter_twice. apply filter_ext.
    intros kv. now rewrite andb_diag.
  - intros key values. rewrite removeHopHeaders_filter, filter_In. simpl.
    now rewrite negb_true_iff.
  - intros key. rewrite removeHopHeaders_filter.
    rewrite (lookup_filter_key (fun k => negb (hop k))). now destruct (hop key).
Qed.

Lemma handleHTTP_engine (env : World) (b : Blocker) (r : Request) (objects : Pointees) :
  engine_of (handleHTTP env b r objects) = engine (IsBlocked b (judged r objects)) /\
  logged_of (handleHTTP env b r objects) = snd (IsBlocked b (judged r objects)).
Proof.
  unfold engine_of, logged_of, handleHTTP, engine. fold (judged r objects).
  destruct (IsBlocked b (judged r objects)) as [[blocked b'] logged]. simpl.
  destruct blocked; [split; reflexivity|].
  destruct (transport env _ _); split; reflexivity.
Qed.

(** X14.  [handleHTTP] asks the engine once, about [r.Host] or, when that is
    empty, about [r.URL.Host], whatever happens next: the engine and the log
    afterwards are those of this one call of [IsBlocked].  When the host is
    blocked the handler sets the content type, writes status 403 and the
    fixed page, makes no round trip, and leaves the URL and the header of
    the request as they were. *)
Theorem handleHTTP_blocked (env : World) (b : Blocker) (r : Request) (objects : Pointees) :
  let res := handleHTTP env b r objects in
  (Host r <> [] -> judged r objects = Host r) /\
  (Host r = [] -> judged r objects = url.Host (URL objects)) /\
  engine_of res = engine (IsBlocked b (judged r objects)) /\
  logged_of res = snd (IsBlocked b (judged r objects)) /\
  (result (IsBlocked b (judged r objects)) = true ->
   calls_of res =
     [HeaderSet "Content-Type" "text/html; charset=utf-8";
      WriteHeader 403; Write blockedPage] /\
   existsb isRoundTrip (calls_of res) = false /\
   objects_of res = objects).
Proof.
  intros res. split; [|split].
  - intros H. unfold judged. apply eqb_neq in H. now rewrite H.
  - intros H. unfold judged. now rewrite H.
  - destruct (handleHTTP_engine env b r objects) as [He Hl].
    split; [exact He|]. split; [exact Hl|].
    unfold res, calls_of, objects_of, handleHTTP, result. fold (judged r objects).
    destruct (IsBlocked b (judged r objects)) as [[blocked b'] logged]. simpl fst.
    intros ->. repeat split.
Qed.

(** X15.  When the host is allowed, the first call of [handleHTTP] is the
    round trip, and there is no other.  The request sent is the inbound one
    with an empty [RequestURI]; it points to the URL and the header of the
    inbound request, which are changed in place and stay so after the call:
    an empty scheme has become ["http"], an empty URL host the host that was
    judged, and the header has lost the entries of [hopHeaders] and kept the
    others. *)
Theorem handleHTTP_outbound_request
    (env : World) (b : Blocker) (r : Request) (objects : Pointees) :
  result (IsBlocked b (judged r objects)) = false ->
  let res := handleHTTP env b r objects in
  let sent := objects_of res in
  hd_error (calls_of res) =
    Some (RoundTrip {| Method := Method r; Host := Host r; RequestURI := [] |} sent) /\
  length (filter isRoundTrip (calls_of res)) = 1%nat /\
  url.Scheme (URL sent) =
    (if eqb (url.Scheme (URL objects)) [] then "http" : gostring
     else url.Scheme (URL objects)) /\
  url.Host (URL sent) =
    (if eqb (url.Host (URL objects)) [] then judged r objects
     else url.Host (URL objects)) /\
  url.Scheme (URL sent) <> [] /\
  Header sent = filter (fun kv => negb (hop (fst kv))) (Header objects).
Proof.
  intros Hallowed res sent.
  unfold sent, res, calls_of, objects_of, handleHTTP. fold (judged r objects).
  unfold result in Hallowed.
  destruct (IsBlocked b (judged r objects)) as [[blocked b'] logged].
  simpl in Hallowed. subst blocked.
  set (u1 := if eqb (url.Scheme (URL objects)) []
             then url.mkURL "http" (url.Host (URL objects)) else URL objects).
  set (u2 := if eqb (url.Host u1) [] then url.mkURL (url.Scheme u1) (judged r objects)
             else u1).
  set (objects' := {| URL := u2; Header := removeHopHeaders (Header objects) |}).
  set (outReq := {| Method := Method r; Host := Host r; RequestURI := [] |}).
  assert (Hcount : forall hdr,
             length (filter isRoundTrip (copyHeader hdr)) = 0%nat).
  { induction hdr as [|[k vs] hdr IH]; [reflexivity|]. simpl.
    rewrite filter_app, length_app, IH.
    induction vs as [|v vs IHv]; [reflexivity | exact IHv]. }
  assert (Hs : url.Scheme u2 =
               (if eqb (url.Scheme (URL objects)) [] then "http" : gostring
                else url.Scheme (URL objects))).
  { unfold u2, u1. destruct (eqb (url.Scheme (URL objects)) []);
      simpl; destruct (eqb _ []); reflexivity. }
  assert (Hh : url.Host u2 =
               (if eqb (url.Host (URL objects)) [] then judged r objects
                else url.Host (URL objects))).
  { unfold u2, u1. destruct (eqb (url.Scheme (URL objects)) []); simpl;
      destruct (eqb (url.Host (URL objects)) []) eqn:E; simpl; try reflexivity;
      now rewrite ?E. }
  destruct (transport env outReq objects') as [err | resp]; simpl.
  - repeat split; auto; try apply removeHopHeaders_filter.
    rewrite Hs. destruct (eqb (url.Scheme (URL objects)) []) eqn:E;
      [discriminate | now apply eqb_neq].
  - repeat split; auto; try apply removeHopHeaders_filter.
    + rewrite filter_app, length_app, Hcount. reflexivity.
    + rewrite Hs. destruct (eqb (url.Scheme (URL objects)) []) eqn:E;
        [discriminate | now apply eqb_neq].
Qed.

Lemma In_copyValues (key : gostring) (values : list gostring) (a : Action) :
  In a (copyValues key values) <-> exists v, In v values /\ a = HeaderAdd key v.
Proof.
  induction values as [|v values IH]; simpl.
  - split; [contradiction | intros [v [[] _]]].
  - rewrite IH. split.
    + intros [<- | [v' [Hin ->]]]; [exists v | exists v']; auto.
    + intros [v' [[<- | Hin] ->]]; [now left | right; now exists v'].
Qed.

Lemma In_copyHeader (header : http.Header) (a : Action) :
  In a (copyHeader header) <->
  exists key values v, In (key, values) header /\ In v values /\ a = HeaderAdd key v.
Proof.
  induction header as [|[k vs] header IH]; simpl.
  - split; [contradiction | intros [k [vs [v [[] _]]]]].
  - rewrite in_app_iff, IH, In_copyValues. split.
    + intros [[v [Hin ->]] | [k' [vs' [v [Hh [Hv ->]]]]]].
      * exists k, vs, v. auto.
      * exists k', vs', v. auto.
    + intros [k' [vs' [v [[E | Hh] [Hv ->]]]]].
      * injection E as <- <-. left. now exists v.
      * right. now exists k', vs', v.
Qed.

(** X16.  After the round trip of an allowed request: if the transport
    returned an error, the handler answers 502 with the text of the error
    and does nothing else; if it returned a response, the handler adds to
    the response of the client each value of each header of the response
    whose name is not in [hopHeaders], and no other, then writes the status
    of the response unchanged, copies the body and closes it. *)
Theorem handleHTTP_relays_the_response
    (env : World) (b : Blocker) (r : Request) (objects : Pointees) :
  result (IsBlocked b (judged r objects)) = false ->
  let res := handleHTTP env b r objects in
  let outReq := {| Method := Method r; Host := Host r; RequestURI := [] |} in
  let trip := RoundTrip outReq (objects_of res) in
  (forall err, transport env outReq (objects_of res) = inl err ->
     calls_of res = [trip; HttpError ("Proxy error: " +++ err) 502]) /\
  (forall resp, transport env outReq (objects_of res) = inr resp ->
     calls_of res =
       trip :: copyHeader (filter (fun kv => negb (hop (fst kv))) (ResponseHeader resp))
            ++ [WriteHeader (StatusCode resp); Copy (Body resp); BodyClose] /\
     (forall key v,
         In (HeaderAdd key v) (calls_of res) <->
         hop key = false /\
         exists values, In (key, values) (ResponseHeader resp) /\ In v values)).
Proof.
  intros Hallowed res outReq trip.
  unfold trip, res, calls_of, objects_of, handleHTTP. fold (judged r objects).
  unfold result in Hallowed.
  destruct (IsBlocked b (judged r objects)) as [[blocked b'] logged].
  simpl in Hallowed. subst blocked. fold outReq.
  set (u1 := if eqb (url.Scheme (URL objects)) []
             then url.mkURL "http" (url.Host (URL objects)) else URL objects).
  set (u2 := if eqb (url.Host u1) [] then url.mkURL (url.Scheme u1) (judged r objects)
             else u1).
  set (objects' := {| URL := u2; Header := removeHopHeaders (Header objects) |}).
  destruct (transport env outReq objects') as [e | rsp] eqn:T; simpl snd; simpl fst.
  - split; [|intros resp H; rewrite T in H; discriminate H].
    intros err H. rewrite T in H. now injection H as ->.
  - split; [intros err H; rewrite T in H; discriminate H|].
    intros resp H. rewrite T in H. injection H as ->.
    rewrite removeHopHeaders_filter. split; [reflexivity|].
    intros key v. split.
    + intros [H | H]; [discriminate H|].
      apply in_app_iff in H as [H | H].
      * apply In_copyHeader in H as [k [vs [v' [Hin [Hv E]]]]].
        injection E as -> ->. apply filter_In in Hin as [Hin Hk].
        simpl in Hk. apply negb_true_iff in Hk. split; [exact Hk | now exists vs].
      * simpl in H. intuition discriminate.
    + intros [Hk [vs [Hin Hv]]]. right. apply in_or_app. left.
      apply In_copyHeader. exists key, vs, v. repeat split; auto.
      apply filter_In. simpl. now rewrite Hk.
Qed.

End PlainHTTP.

(** ** The CONNECT path: what a request can end in *)

Section ConnectOutcomes.
Import strings blocker proxy spec terms.

Ltac connect_cases env b r :=
  unfold actions, handleConnect, result;
  destruct (IsBlocked b (Host r)) as [[blocked b'] logged]; simpl fst;
  destruct blocked;
  [|destruct (dialError env (Host r)) as [derr|];
    [|destruct (isHijacker env); simpl negb; cbv iota;
      [destruct (hijackError env) as [herr|]|]]];
  simpl snd.

Ltac in_list := simpl; repeat first [left; reflexivity | right].


(** X18.  [handleConnect] answers with at most one error, and its status
    tells the cause: 403 with ["Blocked"] exactly when the host is blocked,
    502 with the text of the dial error exactly when the host is allowed and
    the dial fails, 500 when the connection cannot be hijacked, in which case
    the destination connection is closed.  No other status is sent, and
    there is no error answer exactly when the tunnel is set up. *)
Theorem handleConnect_status (env : World) (b : Blocker) (r : Request) :
  let acts := actions (handleConnect env b r) in
  (length (filter isHttpError acts) <= 1)%nat /\
  (forall msg code, In (HttpError msg code) acts ->
     (code = 403 /\ msg = "Blocked" /\ result (IsBlocked b (Host r)) = true) \/
     (code = 502 /\ result (IsBlocked b (Host r)) = false /\
      exists err, dialError env (Host r) = Some err /\
                  msg = "Failed to connect: " +++ err) \/
     (code = 500 /\ result (IsBlocked b (Host r)) = false /\
      dialError env (Host r) = None /\ In DestClose acts /\
      (isHijacker env = false \/ hijackError env <> None))) /\
  (result (IsBlocked b (Host r)) = true -> In (HttpError "Blocked" 403) acts) /\
  (existsb isHttpError acts = false <-> existsb isGoTransfer acts = true).
Proof.
  cbv zeta. split; [|split; [|split]].
  - connect_cases env b r; simpl; lia.
  - intros msg code. connect_cases env b r; simpl;
      intros H; repeat (destruct H as [H | H]; try discriminate H); try contradiction;
      injection H as <- <-.
    + left. auto.
    + right. left. repeat split; auto. now exists derr.
    + right. right. repeat split; auto. right. discriminate.
    + right. right. repeat split; auto.
  - connect_cases env b r; simpl; intros H; try discriminate H. now left.
  - connect_cases env b r; simpl; split; intros H; try discriminate H; reflexivity.
Qed.

End ConnectOutcomes.

(** ** The blacklist of the configuration *)

Section ConfigBlacklist.
Import strings blocker config spec.

Lemma AddToBlacklist_loop_In (l : list gostring) (d : gostring) :
  AddToBlacklist_loop l d = true <-> In d l.
Proof.
  induction l as [|x l IH]; simpl; [split; [discriminate | contradiction]|].
  destruct (eqb x d) eqn:E.
  - apply eqb_eq in E. split; auto.
  - apply eqb_neq in E. rewrite IH. split; [auto | intros [H | H]; [contradiction | exact H]].
Qed.

Lemma RemoveFromBlacklist_loop_filter (l : list gostring) (d : gostring)
    (found : bool) (acc : list gostring) :
  RemoveFromBlacklist_loop l d found acc =
  (found || existsb (fun x => eqb x d) l, acc ++ filter (fun x => negb (eqb x d)) l).
Proof.
  revert found acc. induction l as [|x l IH]; intros found acc; simpl.
  - now rewrite orb_false_r, app_nil_r.
  - destruct (eqb x d); simpl; rewrite IH.
    + now rewrite orb_true_r.
    + now rewrite <- app_assoc.
Qed.

Lemma existsb_eqb_In (l : list gostring) (d : gostring) :
  existsb (fun x => eqb x d) l = true <-> In d l.
Proof.
  rewrite existsb_exists. split.
  - intros [x [Hin E]]. apply eqb_eq in E. now subst.
  - intros H. exists d. split; [exact H | apply eqb_refl].
Qed.

Lemma filter_not_In (l : list gostring) (d : gostring) :
  ~ In d l -> filter (fun x => negb (eqb x d)) l = l.
Proof.
  induction l as [|x l IH]; simpl; [reflexivity|]. intros H.
  destruct (eqb x d) eqn:E.
  - apply eqb_eq in E. subst. exfalso. apply H. now left.
  - simpl. f_equal. apply IH. intros Hin. apply H. now right.
Qed.

Lemma AddToBlacklist_fresh (env : World) (m : Manager) (cfg : Config) (d : gostring) :
  config m = Some cfg -> ~ In d (Blacklist cfg) ->
  AddToBlacklist env m d =
  let m' := {| config := Some (withBlacklist cfg (Blacklist cfg ++ [d]));
               configPath := configPath m |} in
  Some (m', fst (save env m'), snd (save env m')).
Proof.
  intros Hc Hno. unfold AddToBlacklist. rewrite Hc.
  destruct (AddToBlacklist_loop (Blacklist cfg) d) eqn:E; [|reflexivity].
  apply AddToBlacklist_loop_In in E. contradiction.
Qed.

Lemma RemoveFromBlacklist_present
    (env : World) (m : Manager) (cfg : Config) (d : gostring) :
  config m = Some cfg -> In d (Blacklist cfg) ->
  RemoveFromBlacklist env m d =
  let m' := {| config := Some (withBlacklist cfg
                                 (filter (fun x => negb (eqb x d)) (Blacklist cfg)));
               configPath := configPath m |} in
  Some (m', fst (save env m'), snd (save env m')).
Proof.
  intros Hc Hin. unfold RemoveFromBlacklist. rewrite Hc.
  rewrite RemoveFromBlacklist_loop_filter. simpl orb. simpl app.
  apply existsb_eqb_In in Hin. now rewrite Hin.
Qed.

(** X19.  [AddToBlacklist] refuses a domain that is in the list, byte for
    byte: it returns an error, keeps the configuration and writes nothing.
    Otherwise it puts the domain at the end of the list, keeps the rest of
    the configuration, and saves; the list in memory has the domain whether
    the save succeeds or not.  A list without duplicates stays without. *)
Theorem AddToBlacklist_appends_once
    (env : World) (m : Manager) (cfg : Config) (domain : gostring) :
  config m = Some cfg ->
  (In domain (Blacklist cfg) ->
   AddToBlacklist env m domain =
     Some (m, Some ("domain " +++ domain +++ " already in blacklist"), [])) /\
  (~ In domain (Blacklist cfg) ->
   exists m',
     AddToBlacklist env m domain = Some (m', fst (save env m'), snd (save env m')) /\
     GetBlacklist m' = Blacklist cfg ++ [domain] /\
     config m' = Some (withBlacklist cfg (Blacklist cfg ++ [domain])) /\
     configPath m' = configPath m /\
     (NoDup (Blacklist cfg) -> NoDup (GetBlacklist m'))).
Proof.
  intros Hc. split.
  - intros Hin. unfold AddToBlacklist. rewrite Hc.
    apply AddToBlacklist_loop_In in Hin. now rewrite Hin.
  - intros Hno. rewrite (AddToBlacklist_fresh env m cfg domain Hc Hno). cbv zeta.
    eexists. split; [reflexivity|]. repeat split.
    intros Hnd. unfold GetBlacklist. simpl.
    apply NoDup_app; [exact Hnd | repeat constructor; auto |].
    intros x Hx [<- | []]. contradiction.
Qed.

(** X20.  [RemoveFromBlacklist] refuses a domain that is not in the list: it
    returns an error, keeps the configuration and writes nothing.  Otherwise
    it drops every occurrence of the domain, keeps the other entries in
    their order and the rest of the configuration, and saves. *)
Theorem RemoveFromBlacklist_drops_all
    (env : World) (m : Manager) (cfg : Config) (domain : gostring) :
  config m = Some cfg ->
  (~ In domain (Blacklist cfg) ->
   RemoveFromBlacklist env m domain =
     Some (m, Some ("domain " +++ domain +++ " not found in blacklist"), [])) /\
  (In domain (Blacklist cfg) ->
   exists m',
     RemoveFromBlacklist env m domain =
       Some (m', fst (save env m'), snd (save env m')) /\
     GetBlacklist m' = filter (fun d => negb (eqb d domain)) (Blacklist cfg) /\
     ~ In domain (GetBlacklist m') /\
     (forall d, d <> domain -> (In d (GetBlacklist m') <-> In d (Blacklist cfg))) /\
     (length (GetBlacklist m') < length (Blacklist cfg))%nat /\
     config m' = Some (withBlacklist cfg (GetBlacklist m')) /\
     configPath m' = configPath m).
Proof.
  intros Hc. split.
  - intros Hno. unfold RemoveFromBlacklist. rewrite Hc.
    rewrite RemoveFromBlacklist_loop_filter. simpl orb. simpl app.
    replace (existsb (fun x => eqb x domain) (Blacklist cfg)) with false; [reflexivity|].
    symmetry. destruct (existsb _ _) eqn:E; [|reflexivity].
    apply existsb_eqb_In in E. contradiction.
  - intros Hin. rewrite (RemoveFromBlacklist_present env m cfg domain Hc Hin). cbv zeta.
    eexists. split; [reflexivity|].
    unfold GetBlacklist. simpl. repeat split.
    + intros Hf. apply filter_In in Hf as [_ Hf]. now rewrite eqb_refl in Hf.
    + intros Hf. now apply filter_In in Hf.
    + intros Hd. apply filter_In. split; [exact Hd|].
      apply negb_true_iff, eqb_neq. congruence.
    + clear Hc. induction (Blacklist cfg) as [|x l IH]; [contradiction|].
      simpl. destruct (eqb x domain) eqn:E; simpl.
      * pose proof (filter_length_le (fun d => negb (eqb d domain)) l). lia.
      * destruct Hin as [-> | Hin]; [now rewrite eqb_refl in E|].
        specialize (IH Hin). lia.
Qed.

(** X21.  Removing a domain that was just added gives back the
    configuration as it was.  Adding a domain that was just removed does not
    give back the list: the domain is then once in it, behind the other
    entries. *)
Theorem add_then_remove_round_trip
    (env : World) (m : Manager) (cfg : Config) (domain : gostring) :
  config m = Some cfg ->
  (~ In domain (Blacklist cfg) ->
   exists m1 e1 w1 m2 e2 w2,
     AddToBlacklist env m domain = Some (m1, e1, w1) /\
     RemoveFromBlacklist env m1 domain = Some (m2, e2, w2) /\
     GetBlacklist m2 = Blacklist cfg /\ config m2 = Some cfg) /\
  (In domain (Blacklist cfg) ->
   exists m1 e1 w1 m2 e2 w2,
     RemoveFromBlacklist env m domain = Some (m1, e1, w1) /\
     AddToBlacklist env m1 domain = Some (m2, e2, w2) /\
     GetBlacklist m2 =
       filter (fun d => negb (eqb d domain)) (Blacklist cfg) ++ [domain]).
Proof.
  intros Hc. split.
  - intros Hno.
    pose proof (AddToBlacklist_fresh env m cfg domain Hc Hno) as E1. cbv zeta in E1.
    set (m1 := {| config := Some (withBlacklist cfg (Blacklist cfg ++ [domain]));
                  configPath := configPath m |}) in *.
    assert (Hin : In domain (Blacklist (withBlacklist cfg (Blacklist cfg ++ [domain]))))
      by (simpl; apply in_or_app; right; now left).
    pose proof (RemoveFromBlacklist_present env m1 _ domain eq_refl Hin) as E2.
    cbv zeta in E2.
    assert (F : filter (fun x => negb (eqb x domain))
                  (Blacklist (withBlacklist cfg (Blacklist cfg ++ [domain]))) =
                Blacklist cfg).
    { simpl. rewrite filter_app. simpl. rewrite eqb_refl. simpl.
      rewrite app_nil_r. now apply filter_not_In. }
    rewrite F in E2.
    do 6 eexists. split; [exact E1|]. split; [exact E2|].
    unfold GetBlacklist. simpl. split; [reflexivity|]. now destruct cfg.
  - intros Hin.
    pose proof (RemoveFromBlacklist_present env m cfg domain Hc Hin) as E1.
    cbv zeta in E1.
    set (l1 := filter (fun x => negb (eqb x domain)) (Blacklist cfg)) in *.
    set (m1 := {| config := Some (withBlacklist cfg l1); configPath := configPath m |}) in *.
    assert (Hno : ~ In domain (Blacklist (withBlacklist cfg l1))).
    { simpl. unfold l1. intros Hf. apply filter_In in Hf as [_ Hf].
      now rewrite eqb_refl in Hf. }
    pose proof (AddToBlacklist_fresh env m1 _ domain eq_refl Hno) as E2.
    cbv zeta in E2.
    do 6 eexists. split; [exact E1|]. split; [exact E2|]. reflexivity.
Qed.

Lemma Decide_by_compile (ps qs : list gostring) (d : gostring) :
  compile ps = compile qs -> Decide ps d = Decide qs d.
Proof. intros E. now rewrite !Decide_existsb, E. Qed.


(** X23.  [Load] leaves a configuration only when the file was read and
    parsed; then the port is not 0, and the bind address and the level are
    not empty: what the file leaves out is 8080, 127.0.0.1 and info, what it
    sets is kept, as are the blacklist and the two logging flags.  When the
    file cannot be read or parsed, [Load] returns the error and the manager
    is as before. *)
Theorem Load_fills_defaults (env : World) (m : Manager) :
  let m' := fst (Load env m) in
  (forall err, ReadFile env (configPath m) = inl err ->
     Load env m = (m, Some ("failed to read config file: " +++ err))) /\
  (forall data err, ReadFile env (configPath m) = inr data ->
     Unmarshal env data = inl err ->
     Load env m = (m, Some ("failed to parse config file: " +++ err))) /\
  (forall data parsed, ReadFile env (configPath m) = inr data ->
     Unmarshal env data = inr parsed ->
     snd (Load env m) = None /\ configPath m' = configPath m /\
     exists cfg,
       config m' = Some cfg /\
       Port (Proxy cfg) <> 0 /\ Bind (Proxy cfg) <> [] /\ Level (Logging cfg) <> [] /\
       (Port (Proxy parsed) <> 0 -> Port (Proxy cfg) = Port (Proxy parsed)) /\
       (Port (Proxy parsed) = 0 -> Port (Proxy cfg) = 8080) /\
       (Bind (Proxy parsed) <> [] -> Bind (Proxy cfg) = Bind (Proxy parsed)) /\
       (Bind (Proxy parsed) = [] -> Bind (Proxy cfg) = "127.0.0.1") /\
       (Level (Logging parsed) <> [] -> Level (Logging cfg) = Level (Logging parsed)) /\
       (Level (Logging parsed) = [] -> Level (Logging cfg) = "info") /\
       Blacklist cfg = Blacklist parsed /\
       LogBlocked (Logging cfg) = LogBlocked (Logging parsed) /\
       LogAllowed (Logging cfg) = LogAllowed (Logging parsed) /\
       GetBlacklist m' = Blacklist parsed).
Proof.
  intros m'. unfold m', Load. split; [|split].
  - intros err ->. reflexivity.
  - intros data err -> ->. reflexivity.
  - intros data parsed -> ->. simpl. split; [reflexivity|]. split; [reflexivity|].
    eexists. split; [reflexivity|]. simpl.
    destruct (Z.eqb_spec (Port (Proxy parsed)) 0) as [Ep | Ep];
      (destruct (eqb (Bind (Proxy parsed)) []) eqn:Eb;
         [apply eqb_eq in Eb | apply eqb_neq in Eb]);
      (destruct (eqb (Level (Logging parsed)) []) eqn:El;
         [apply eqb_eq in El | apply eqb_neq in El]);
      repeat split; auto; try discriminate; try congruence.
Qed.

(** X24.  A manager has a configuration only after a [Load] that succeeded.
    Without one, [GetBlacklist] returns the empty list, while
    [AddToBlacklist] and [RemoveFromBlacklist] panic; with one they never
    do. *)
Theorem manager_needs_Load (env : World) (m : Manager) (domain : gostring) :
  (AddToBlacklist env m domain = None <-> config m = None) /\
  (RemoveFromBlacklist env m domain = None <-> config m = None) /\
  (config m = None -> GetBlacklist m = [] /\ Get m = None) /\
  config (NewManager (configPath m)) = None /\
  (snd (Load env (NewManager (configPath m))) = None <->
   config (fst (Load env (NewManager (configPath m)))) <> None).
Proof.
  split; [|split; [|split; [|split]]].
  - unfold AddToBlacklist. destruct (config m) as [cfg|]; [|tauto].
    destruct (AddToBlacklist_loop _ _); split; discriminate.
  - unfold RemoveFromBlacklist. destruct (config m) as [cfg|]; [|tauto].
    rewrite RemoveFromBlacklist_loop_filter. simpl.
    destruct (existsb _ _); simpl; split; discriminate.
  - unfold GetBlacklist, Get. intros ->. split; reflexivity.
  - reflexivity.
  - unfold Load, NewManager. simpl.
    destruct (ReadFile env (configPath m)) as [e | data]; simpl;
      [split; [discriminate | congruence]|].
    destruct (Unmarshal env data) as [e | cfg]; simpl;
      [split; [discriminate | congruence] | split; [discriminate | reflexivity]].
Qed.

End ConfigBlacklist.

(** ** Configuration and engine: what an edit of the list does to decisions *)

Section EditsAndDecisions.
Import strings blocker config cmd spec.

Lemma runProxy_blocker_result (cfg : Config) (x : gostring) :
  result (IsBlocked (runProxy_blocker cfg) x) = Decide (Blacklist cfg) x.
Proof.
  rewrite IsBlocked_result_existsb, Decide_existsb.
  unfold runProxy_blocker. cbv zeta. now rewrite matchers_UpdateBlacklist.
Qed.

Lemma Decide_one (p x : gostring) :
  Decide [p] x = nonblank p && Match (CreateMatcher p) (normalize x).
Proof.
  rewrite Decide_existsb. unfold compile. simpl.
  destruct (nonblank p); simpl; [apply orb_false_r | reflexivity].
Qed.



End EditsAndDecisions.


(** ** Instances of the further properties *)

Section MatcherInstances.
Import strings blocker spec.










End MatcherInstances.

Section HandlerInstances.
Import strings blocker handler spec terms.

Lemma handleHTTP_blocked_witness :
  let env := mkWorld (fun _ _ => inl ("unreachable" : gostring)) in
  let r := mkRequest "GET" "" "http://www.tiktok.com/" in
  let objects :=
    mkPointees (url.mkURL "http" "WWW.TikTok.com:80")
               [("Connection" : gostring, ["close" : gostring])] in
  calls_of (handleHTTP env sample_engine r objects) =
    [HeaderSet "Content-Type" "text/html; charset=utf-8";
     WriteHeader 403; Write blockedPage] /\
  objects_of (handleHTTP env sample_engine r objects) = objects.
Proof.
  intros env r objects.
  pose proof (handleHTTP_blocked env sample_engine r objects) as H.
  cbv zeta in H. destruct H as [_ [_ [_ [_ H]]]].
  destruct H as [C [_ O]]; [vm_compute; reflexivity|].
  split; assumption.
Defined.

Lemma handleHTTP_outbound_request_witness :
  let env := mkWorld (fun _ _ => inl ("connection refused" : gostring)) in
  let r := mkRequest "GET" "example.com" "/index.html" in
  let objects :=
    mkPointees (url.mkURL "" "")
               [("Connection" : gostring, ["close" : gostring]);
                ("Accept" : gostring, ["*/*" : gostring])] in
  let res := handleHTTP env sample_engine r objects in
  hd_error (calls_of res) =
    Some (RoundTrip (mkRequest "GET" "example.com" "") (objects_of res)) /\
  url.Scheme (URL (objects_of res)) = "http" /\
  url.Host (URL (objects_of res)) = "example.com" /\
  Header (objects_of res) = [("Accept" : gostring, ["*/*" : gostring])].
Proof.
  intros env r objects res.
  pose proof (handleHTTP_outbound_request env sample_engine r objects) as H.
  cbv zeta in H.
  destruct H as [H1 [_ [H3 [H4 [_ H6]]]]]; [vm_compute; reflexivity|].
  split; [exact H1|]. split; [exact H3|]. split; [exact H4|]. exact H6.
Defined.

Lemma handleHTTP_relays_the_response_witness :
  let resp :=
    mkResponse 404
      [("Content-Type" : gostring, ["text/html" : gostring]);
       ("Connection" : gostring, ["keep-alive" : gostring])]
      "not found" in
  let env := mkWorld (fun _ _ => inr resp) in
  let r := mkRequest "GET" "example.com" "/index.html" in
  let objects := mkPointees (url.mkURL "http" "example.com") [] in
  calls_of (handleHTTP env sample_engine r objects) =
    [RoundTrip (mkRequest "GET" "example.com" "") objects;
     HeaderAdd "Content-Type" "text/html";
     WriteHeader 404; Copy "not found"; BodyClose].
Proof.
  intros resp env r objects.
  pose proof (handleHTTP_relays_the_response env sample_engine r objects) as H.
  cbv zeta in H.
  destruct H as [_ H]; [vm_compute; reflexivity|].
  destruct (H resp) as [C _]; [reflexivity|].
  exact C.
Defined.

End HandlerInstances.

Section ConnectInstances.
Import strings blocker proxy spec terms.


Lemma handleConnect_status_witness :
  let env := mkWorld (fun _ => None) true None in
  let r := mkRequest "CONNECT" "www.tiktok.com:443" in
  In (HttpError "Blocked" 403) (actions (handleConnect env sample_engine r)).
Proof.
  intros env r.
  pose proof (handleConnect_status env sample_engine r) as H.
  cbv zeta in H. destruct H as [_ [_ [H _]]].
  apply H. vm_compute. reflexivity.
Defined.

End ConnectInstances.

Section ConfigInstances.
Import strings blocker config cmd spec.

Lemma AddToBlacklist_appends_once_witness :
  let env := mkWorld (fun _ => inl ("no file" : gostring))
                     (fun _ => inl ("no yaml" : gostring))
                     (fun _ => inr ("data" : gostring))
                     (fun _ _ => None) in
  let cfg := mkConfig (mkProxyConfig 8080 "127.0.0.1") ["a.com" : gostring]
                      (mkLoggingConfig "info" true false) in
  let m := mkManager (Some cfg) "config.yaml" in
  AddToBlacklist env m "a.com" =
    Some (m, Some ("domain a.com already in blacklist" : gostring), []) /\
  exists m',
    AddToBlacklist env m "b.com" = Some (m', fst (save env m'), snd (save env m')) /\
    GetBlacklist m' = ["a.com" : gostring; "b.com" : gostring].
Proof.
  intros env cfg m.
  destruct (AddToBlacklist_appends_once env m cfg "a.com" eq_refl) as [H1 _].
  destruct (AddToBlacklist_appends_once env m cfg "b.com" eq_refl) as [_ H2].
  split.
  - apply H1. simpl. left. reflexivity.
  - destruct H2 as [m' [E [G _]]].
    + simpl. intros [E | []]. discriminate E.
    + exists m'. split; [exact E | exact G].
Defined.

Lemma RemoveFromBlacklist_drops_all_witness :
  let env := mkWorld (fun _ => inl ("no file" : gostring))
                     (fun _ => inl ("no yaml" : gostring))
                     (fun _ => inr ("data" : gostring))
                     (fun _ _ => None) in
  let cfg := mkConfig (mkProxyConfig 8080 "127.0.0.1")
                      ["a.com" : gostring; "b.com" : gostring; "a.com" : gostring]
                      (mkLoggingConfig "info" true false) in
  let m := mkManager (Some cfg) "config.yaml" in
  RemoveFromBlacklist env m "A.com" =
    Some (m, Some ("domain A.com not found in blacklist" : gostring), []) /\
  exists m',
    RemoveFromBlacklist env m "a.com" =
      Some (m', fst (save env m'), snd (save env m')) /\
    GetBlacklist m' = ["b.com" : gostring].
Proof.
  intros env cfg m.
  destruct (RemoveFromBlacklist_drops_all env m cfg "A.com" eq_refl) as [H1 _].
  destruct (RemoveFromBlacklist_drops_all env m cfg "a.com" eq_refl) as [_ H2].
  split.
  - apply H1. simpl. intros [E | [E | [E | []]]]; discriminate E.
  - destruct H2 as [m' [E [G _]]].
    + simpl. left. reflexivity.
    + exists m'. split; [exact E | exact G].
Defined.

Lemma add_then_remove_round_trip_witness :
  let env := mkWorld (fun _ => inl ("no file" : gostring))
                     (fun _ => inl ("no yaml" : gostring))
                     (fun _ => inr ("data" : gostring))
                     (fun _ _ => Some ("disk full" : gostring)) in
  let cfg := mkConfig (mkProxyConfig 8080 "127.0.0.1") ["a.com" : gostring]
                      (mkLoggingConfig "info" true false) in
  let m := mkManager (Some cfg) "config.yaml" in
  exists m1 e1 w1 m2 e2 w2,
    AddToBlacklist env m "b.com" = Some (m1, e1, w1) /\
    RemoveFromBlacklist env m1 "b.com" = Some (m2, e2, w2) /\
    GetBlacklist m2 = ["a.com" : gostring] /\ config m2 = Some cfg.
Proof.
  intros env cfg m.
  destruct (add_then_remove_round_trip env m cfg "b.com" eq_refl) as [H _].
  apply H. simpl. intros [E | []]. discriminate E.
Defined.


Lemma Load_fills_defaults_witness :
  let parsed := mkConfig (mkProxyConfig 0 "") ["a.com" : gostring]
                         (mkLoggingConfig "" true false) in
  let env := mkWorld (fun _ => inr ("blacklist: [a.com]" : gostring))
                     (fun _ => inr parsed)
                     (fun _ => inr ("data" : gostring))
                     (fun _ _ => None) in
  let m := NewManager "config.yaml" in
  snd (Load env m) = None /\
  exists cfg,
    config (fst (Load env m)) = Some cfg /\
    Port (Proxy cfg) = 8080 /\ Bind (Proxy cfg) = "127.0.0.1" /\
    Level (Logging cfg) = "info" /\ Blacklist cfg = ["a.com" : gostring].
Proof.
  intros parsed env m.
  pose proof (Load_fills_defaults env m) as H. cbv zeta in H.
  destruct H as [_ [_ H]].
  destruct (H ("blacklist: [a.com]" : gostring) parsed eq_refl eq_refl)
    as [E [_ [cfg [C [_ [_ [_ [_ [P [_ [B [_ [L [K _]]]]]]]]]]]]]].
  split; [exact E|]. exists cfg. split; [exact C|].
  split; [apply P; reflexivity|]. split; [apply B; reflexivity|].
  split; [apply L; reflexivity | exact K].
Defined.

Lemma manager_needs_Load_witness :
  let env := mkWorld (fun _ => inl ("no file" : gostring))
                     (fun _ => inl ("no yaml" : gostring))
                     (fun _ => inr ("data" : gostring))
                     (fun _ _ => None) in
  let m := NewManager "config.yaml" in
  AddToBlacklist env m "a.com" = None /\
  RemoveFromBlacklist env m "a.com" = None /\
  GetBlacklist m = [] /\ Get m = None.
Proof.
  intros env m.
  destruct (manager_needs_Load env m "a.com") as [[_ A] [[_ R] [G _]]].
  split; [apply A; reflexivity|]. split; [apply R; reflexivity|].
  apply G. reflexivity.
Defined.



End ConfigInstances.
